(** * Whiteboard: the room registry, the coordinate helpers and the shape scorer

    A shallow embedding of three source files of the whiteboard:
    - [pages/api/socket.ts]      (module [Socket]):   the per-room drawing state
      and the socket.io event handlers that mutate and relay it;
    - [components/AutoDraw.tsx]  (module [AutoDraw]): [normalizePoint] and
      [denormalizePoint]; (module [Client]): [getBBox], [mapToShapeLabel],
      the selection of suggestions and what the socket handlers do to the
      local strokes;
    - [hooks/useShapeAI.ts]      (module [ShapeAI]):  the heuristic [predict].

    JavaScript numbers are carried by the rationals ([Q]): finite values, no
    NaN.  The scorer's arithmetic is exact; the products and quotients of
    the coordinate helpers are parameters, since doubles round them.
    Strings are [string]; the [Map] of rooms is a [gmap];
    socket.io's room membership is a [gmap] from room name to a [gset] of
    socket ids. *)

From Stdlib Require Import QArith Qminmax Qabs Lqa Sorted.
From stdpp Require Import gmap strings list fin_maps.

#[local] Set Warnings "-clear-no-such-hyp".

Local Open Scope string_scope.
Local Open Scope list_scope.

(* ===================================================================== *)
(** ** pages/api/socket.ts *)
(* ===================================================================== *)

Module Socket.

(** [type NPoint = { nx:number; ny:number; t:number }] *)
Record NPoint := { nx : Q; ny : Q; t : Q }.

(** [type Stroke = { id:string; points:NPoint[]; color:string; size:number; owner?:string }] *)
Record Stroke := {
  id : string;
  points : list NPoint;
  color : string;
  size : Q;
  owner : option string
}.

(** [type RoomState = { strokes: Stroke[] }] *)
Record RoomState := { strokes : list Stroke }.

Definition SocketId := string.

(** The payload of a [cursor] message: the four fields the component sends
    and, if the sender put one in, an [id] field of the payload's own. *)
Record CursorPayload := {
  c_id : option string;
  c_room : string;
  c_nx : Q;
  c_ny : Q;
  c_color : string
}.

(** Events a connection can deliver to the server; the constructors carry the
    destructured payload of the handler of the same name.  [connection] and
    [disconnect] are the two lifecycle events of socket.io. *)
Inductive Event :=
| connection
| join_room (room : string)
| cursor (payload : CursorPayload)
| stroke_start (room : string) (stroke : Stroke)
| stroke_append (room : string) (point : NPoint)
| stroke_end (room : string)
| clear (room : string)
| undo (room : string)
| disconnect.

(** Messages the server emits: the event name with its payload.
    [m_cursor tag payload] is the object [{ id: tag, ...payload }] and
    [m_cursor_bare tag] the object [{ id: tag }]. *)
Inductive Message :=
| m_state (state : RoomState)
| m_user_joined (sender : SocketId)
| m_cursor (tag : string) (payload : CursorPayload)
| m_cursor_bare (tag : string)
| m_stroke_start (sender : SocketId) (stroke : Stroke)
| m_stroke_append (sender : SocketId) (point : NPoint)
| m_stroke_end (sender : SocketId)
| m_clear
| m_undo
| m_user_left (sender : SocketId).

(** The three ways the handlers address an emit. *)
Inductive Target :=
| socket_emit (sock : SocketId)                 (* socket.emit(..)          *)
| socket_to (sock : SocketId) (room : string)   (* socket.to(room).emit(..) *)
| io_to (room : string).                        (* io.to(room).emit(..)     *)

Definition Emit : Type := Target * Message.

(** The process state: the module-level [rooms] map, the [roomId] variable of
    every connection's closure (absent = [null]) and socket.io's adapter
    (which sockets are in which room). *)
Record Server := {
  rooms : gmap string RoomState;
  roomId : gmap string string;
  adapter : gmap string (gset string)
}.

Definition init : Server := {| rooms := ∅; roomId := ∅; adapter := ∅ |}.

(** Sockets currently in a socket.io room. *)
Definition members (st : Server) (room : string) : gset SocketId :=
  default ∅ (adapter st !! room).

(** Who receives an emit: [socket.emit] the socket itself, [socket.to(room)]
    every socket of the room except the sender, [io.to(room)] every socket
    of the room. *)
Definition recipients (st : Server) (tg : Target) : gset SocketId :=
  match tg with
  | socket_emit sock => {[ sock ]}
  | socket_to sock room => members st room ∖ {[ sock ]}
  | io_to room => members st room
  end.

(** [socket.join(room)] *)
Definition socket_join (sock : SocketId) (room : string)
    (a : gmap string (gset string)) : gmap string (gset string) :=
  <[ room := default ∅ (a !! room) ∪ {[ sock ]} ]> a.

(** socket.io removes a closing socket from every room. *)
Definition leave_all (sock : SocketId)
    (a : gmap string (gset string)) : gmap string (gset string) :=
  (λ s : gset string, s ∖ {[ sock ]}) <$> a.

(** The guard [if (!roomId) return]: [roomId] is falsy when it is [null] or
    the empty string.  [current_room] is the room the guard lets through. *)
Definition current_room (st : Server) (sock : SocketId) : option string :=
  match roomId st !! sock with
  | Some r => if decide (r = "") then None else Some r
  | None => None
  end.

(** [rooms.get(room) || { strokes: [] }] *)
Definition get_or_new (st : Server) (room : string) : RoomState :=
  default {| strokes := [] |} (rooms st !! room).

(** [const last = strokes[strokes.length - 1]; if (last) last.points.push(point)] *)
Definition push_to_last (ss : list Stroke) (point : NPoint) : list Stroke :=
  match ss !! (length ss - 1)%nat with
  | Some l =>
      <[ (length ss - 1)%nat :=
           {| id := id l; points := points l ++ [point]; color := color l;
              size := size l; owner := owner l |} ]> ss
  | None => ss
  end.

(** [strokes.pop()] *)
Definition pop (ss : list Stroke) : list Stroke := removelast ss.

Definition set_rooms (st : Server) (m : gmap string RoomState) : Server :=
  {| rooms := m; roomId := roomId st; adapter := adapter st |}.

(** [io.on("connection", (socket) => { let roomId = null; ... })]: a fresh
    closure, and socket.io puts the new socket in the room named by its id. *)
Definition on_connection (sock : SocketId) (st : Server) : Server * list Emit :=
  ({| rooms := rooms st;
      roomId := delete sock (roomId st);
      adapter := socket_join sock sock (adapter st) |}, []).

Definition on_join_room (sock : SocketId) (room : string) (st : Server)
    : Server * list Emit :=
  let state := get_or_new st room in
  ({| rooms := <[ room := state ]> (rooms st);
      roomId := <[ sock := room ]> (roomId st);
      adapter := socket_join sock room (adapter st) |},
   [ (socket_emit sock, m_state state);
     (socket_to sock room, m_user_joined sock) ]).

(** The [id] of [{ id: socket.id, ...payload }]: the spread comes after
    [id], so an [id] of the payload's own replaces the socket's. *)
Definition cursor_tag (sock : SocketId) (payload : CursorPayload) : string :=
  default sock (c_id payload).

Definition on_cursor (sock : SocketId) (payload : CursorPayload) (st : Server)
    : Server * list Emit :=
  match current_room st sock with
  | None => (st, [])
  | Some r => (st, [ (socket_to sock r, m_cursor (cursor_tag sock payload) payload) ])
  end.

Definition on_stroke_start (sock : SocketId) (room : string) (stroke : Stroke)
    (st : Server) : Server * list Emit :=
  let state := get_or_new st room in
  ({| rooms := <[ room := {| strokes := strokes state ++ [stroke] |} ]> (rooms st);
      roomId := <[ sock := room ]> (roomId st);
      adapter := socket_join sock room (adapter st) |},
   [ (socket_to sock room, m_stroke_start sock stroke) ]).

Definition on_stroke_append (sock : SocketId) (room : string) (point : NPoint)
    (st : Server) : Server * list Emit :=
  match current_room st sock with
  | None => (st, [])
  | Some r =>
      match rooms st !! r with
      | None => (st, [])
      | Some state =>
          (set_rooms st
             (<[ r := {| strokes := push_to_last (strokes state) point |} ]> (rooms st)),
           [ (socket_to sock r, m_stroke_append sock point) ])
      end
  end.

Definition on_stroke_end (sock : SocketId) (room : string) (st : Server)
    : Server * list Emit :=
  match current_room st sock with
  | None => (st, [])
  | Some r => (st, [ (socket_to sock r, m_stroke_end sock) ])
  end.

Definition on_clear (sock : SocketId) (room : string) (st : Server)
    : Server * list Emit :=
  match current_room st sock with
  | None => (st, [])
  | Some r =>
      (match rooms st !! r with
       | Some _ => set_rooms st (<[ r := {| strokes := [] |} ]> (rooms st))
       | None => st
       end,
       [ (io_to r, m_clear) ])
  end.

Definition on_undo (sock : SocketId) (room : string) (st : Server)
    : Server * list Emit :=
  match current_room st sock with
  | None => (st, [])
  | Some r =>
      match rooms st !! r with
      | None => (st, [])
      | Some state =>
          (set_rooms st (<[ r := {| strokes := pop (strokes state) |} ]> (rooms st)),
           [ (io_to r, m_undo) ])
      end
  end.

(** [disconnect]: socket.io has taken the socket out of every room; the
    handler announces the departure to the room of the closure, and the
    closure, [roomId] included, is gone with the socket. *)
Definition on_disconnect (sock : SocketId) (st : Server) : Server * list Emit :=
  ({| rooms := rooms st;
      roomId := delete sock (roomId st);
      adapter := leave_all sock (adapter st) |},
   match current_room st sock with
   | None => []
   | Some r => [ (socket_to sock r, m_user_left sock) ]
   end).

(** One event of connection [sock], applied to the process state: what the
    handler does once its parameter is bound to a payload object. *)
Definition handle (sock : SocketId) (e : Event) (st : Server) : Server * list Emit :=
  match e with
  | connection => on_connection sock st
  | join_room room => on_join_room sock room st
  | cursor payload => on_cursor sock payload st
  | stroke_start room stroke => on_stroke_start sock room stroke st
  | stroke_append room point => on_stroke_append sock room point st
  | stroke_end room => on_stroke_end sock room st
  | clear room => on_clear sock room st
  | undo room => on_undo sock room st
  | disconnect => on_disconnect sock st
  end.

(** The names a client can emit. *)
Inductive EventName :=
| ev_join_room | ev_cursor | ev_stroke_start | ev_stroke_append
| ev_stroke_end | ev_clear | ev_undo.

(** What arrives on a connection: an event with its payload object (or a
    lifecycle event), or an event name emitted with no payload at all. *)
Inductive Packet :=
| carrying (e : Event)
| bare (n : EventName).

(** A handler returns, leaving a state and its emits, or throws. *)
Inductive Outcome :=
| returns (st : Server) (out : list Emit)
| throws.

(** A packet of connection [sock].  The handlers of [join_room],
    [stroke_start], [stroke_append], [stroke_end], [clear] and [undo] take
    their payload apart in the parameter list, [({ room, .. }) => ..]:
    with no payload that is a [TypeError], thrown before the first
    statement of the body, the [roomId] guard included.  The [cursor]
    handler binds [payload] whole and spreads it, and spreading
    [undefined] adds nothing. *)
Definition receive (sock : SocketId) (pk : Packet) (st : Server) : Outcome :=
  match pk with
  | carrying e => returns (handle sock e st).1 (handle sock e st).2
  | bare ev_cursor =>
      match current_room st sock with
      | None => returns st []
      | Some r => returns st [ (socket_to sock r, m_cursor_bare sock) ]
      end
  | bare _ => throws
  end.

(** The handlers run one at a time on the event loop: a run of the server is
    the fold of [handle] over the events in arrival order. *)
Fixpoint run (tr : list (SocketId * Event)) (st : Server) : Server :=
  match tr with
  | [] => st
  | (sock, e) :: tr' => run tr' (handle sock e st).1
  end.

(** The emits of one event, each resolved to the sockets that receive it
    (membership is read after the handler's own [socket.join]). *)
Definition broadcast (sock : SocketId) (e : Event) (st : Server)
    : list (gset SocketId * Message) :=
  let '(st', out) := handle sock e st in
  map (λ em : Emit, (recipients st' em.1, em.2)) out.

(** The strokes the registry holds for a room (none for an unknown room). *)
Definition room_strokes (st : Server) (room : string) : list Stroke :=
  from_option strokes [] (rooms st !! room).

(** *** Vocabulary of the statements *)

(** The handlers that start with the guard [if (!roomId) return]. *)
Definition guarded (e : Event) : bool :=
  match e with
  | cursor _ | stroke_append _ _ | stroke_end _ | clear _ | undo _ => true
  | _ => false
  end.

(** The four guarded handlers whose payload is [{ room, .. }] and that act on
    the registry or announce a change of it. *)
Definition room_scoped (e : Event) : bool :=
  match e with
  | stroke_append _ _ | stroke_end _ | clear _ | undo _ => true
  | _ => false
  end.

(** The same event with another [room] field in its payload. *)
Definition with_room (rm : string) (e : Event) : Event :=
  match e with
  | join_room _ => join_room rm
  | stroke_start _ s => stroke_start rm s
  | stroke_append _ p => stroke_append rm p
  | stroke_end _ => stroke_end rm
  | clear _ => clear rm
  | undo _ => undo rm
  | cursor c =>
      cursor {| c_id := c_id c; c_room := rm; c_nx := c_nx c; c_ny := c_ny c;
                c_color := c_color c |}
  | connection => connection
  | disconnect => disconnect
  end.

(** The room an emit is addressed to, if it is addressed to a room. *)
Definition target_room (tg : Target) : option string :=
  match tg with
  | socket_emit _ => None
  | socket_to _ room => Some room
  | io_to room => Some room
  end.

(** What holds of every state the server reaches: a connection whose
    [roomId] is set has a RoomState for that room in the registry and is a
    socket.io member of it. *)
Definition consistent (st : Server) : Prop :=
  ∀ sock r, roomId st !! sock = Some r →
    is_Some (rooms st !! r) ∧ sock ∈ members st r.

(** *** Sample data *)

Definition pt (a b c : Q) : NPoint := {| nx := a; ny := b; t := c |}.

Definition mk_stroke (i : string) (ps : list NPoint) (o : string) : Stroke :=
  {| id := i; points := ps; color := "#111827"; size := 4; owner := Some o |}.

(** The scenario of the specification: one client draws a stroke of two
    points in room [R1]. *)
Definition scenario1 : list (SocketId * Event) :=
  [ ("A", connection); ("A", join_room "R1");
    ("A", stroke_start "R1" (mk_stroke "s1" [pt (1#10) (1#10) 0] "A"));
    ("A", stroke_append "R1" (pt (2#10) (2#10) 1));
    ("A", stroke_end "R1") ].

(** Two clients in one room, each with an open stroke; then the first one
    sends the next point of its stroke. *)
Definition two_open_strokes : list (SocketId * Event) :=
  [ ("A", connection); ("A", join_room "R1");
    ("B", connection); ("B", join_room "R1");
    ("A", stroke_start "R1" (mk_stroke "s1" [pt (1#10) (1#10) 0] "A"));
    ("B", stroke_start "R1" (mk_stroke "s2" [pt (5#10) (5#10) 0] "B")) ].

End Socket.

(* ===================================================================== *)
(** ** components/AutoDraw.tsx: the realtime helpers *)
(* ===================================================================== *)

Module AutoDraw.

Local Open Scope Q_scope.

(** [type Point = { x: number; y: number; t: number }] *)
Record Point := { x : Q; y : Q; t : Q }.

(** [type NPoint = { nx:number; ny:number; t:number }]; the third field is
    named [nt] here because [t] is taken by [Point]. *)
Record NPoint := { nx : Q; ny : Q; nt : Q }.

(** What [canvas.getBoundingClientRect()] returns, as far as the helpers read
    it.  A canvas is the rectangle it reports; [None] is the [null] canvas. *)
Record DOMRect := { width : Q; height : Q }.

Section Doubles.

(** The quotient [a / b] and the product [a * b] of two doubles, as the
    machine computes them: rounded, so that nothing is assumed of them. *)
Variable fdiv fmul : Q → Q → Q.

Definition normalizePoint (p : Point) (canvas : option DOMRect) : NPoint :=
  match canvas with
  | None => {| nx := 0; ny := 0; nt := t p |}
  | Some rect =>
      {| nx := fdiv (x p) (width rect); ny := fdiv (y p) (height rect); nt := t p |}
  end.

Definition denormalizePoint (p : NPoint) (canvas : option DOMRect) : Point :=
  match canvas with
  | None => {| x := 0; y := 0; t := nt p |}
  | Some rect =>
      {| x := fmul (nx p) (width rect); y := fmul (ny p) (height rect); t := nt p |}
  end.

End Doubles.

End AutoDraw.

(* ===================================================================== *)
(** ** hooks/useShapeAI.ts: the heuristic scorer *)
(* ===================================================================== *)

Module ShapeAI.

Local Open Scope Q_scope.

(** [type HeuristicPrediction = { label: string; score: number }] *)
Record HeuristicPrediction := { label : string; score : Q }.

(** [Math.max(0, Math.min(1, x))] *)
Definition clamp01 (x : Q) : Q := Qmax 0 (Qmin 1 x).

(** [Array.prototype.sort(cmp)]: a stable sort; an element goes before another
    when [cmp] is negative and keeps its place when it is zero.  [insert]
    puts an element that stood before all of [l] into the sorted [l]. *)
Fixpoint insert {A : Type} (cmp : A → A → Q) (a : A) (l : list A) : list A :=
  match l with
  | [] => [a]
  | b :: l' => if Qle_bool (cmp a b) 0 then a :: b :: l' else b :: insert cmp a l'
  end.

Fixpoint sort {A : Type} (cmp : A → A → Q) (l : list A) : list A :=
  match l with
  | [] => []
  | a :: l' => insert cmp a (sort cmp l')
  end.

(** [Array.prototype.slice(0, end)] for an integer [end]: a negative [end]
    counts from the back of the array. *)
Definition slice0 {A : Type} (l : list A) (e : Z) : list A :=
  let len := Z.of_nat (length l) in
  let k := if (e <? 0)%Z then Z.max (len + e) 0 else Z.min e len in
  take (Z.to_nat k) l.

Section Predict.

(** [Math.exp], about which nothing is assumed. *)
Variable exp : Q → Q.

(** [clamp01(Math.exp(-Math.pow((v - target) / (scale || 1), 2)))] *)
Definition closeness (v target scale : Q) : Q :=
  clamp01 (exp (- ((v - target) / (if Qeq_bool scale 0 then 1 else scale)) ^ 2)).

(** The record [s] after the six assignments, in key order. *)
Definition scores (corners circ ar sym : Q) : list (string * Q) :=
  [ ("circle", clamp01 (circ * (1 - corners / 8)));
    ("rectangle", closeness corners 4 4 * closeness ar 1 (6 # 10));
    ("triangle", closeness corners 3 (35 # 10));
    ("star", clamp01 (Qmax 0 (corners - 6) / 6 * (1 - circ * (5 # 10))));
    ("heart",
      clamp01 (sym * (1 - Qabs (ar - 1))
               * (if Qle_bool 2 corners && Qle_bool corners 6 then 1 else 3 # 10)));
    ("cloud", clamp01 (circ * Qmin (corners / 10) 1)) ].

(** [predict(features, topK)] ([topK] is 6 when the caller passes none).
    The array pattern names five entries and the body reads the first four
    ([lengthNorm] is never used).  An array of fewer than four leaves one
    that is read [undefined]: a score is then [NaN], which the carrier has
    no value for, and [sort] with a comparator that returns [NaN] orders
    the array as the engine pleases: [None]. *)
Definition predict (features : list Q) (topK : Z) : option (list HeuristicPrediction) :=
  match features with
  | corners :: circ :: ar :: sym :: _ =>
      Some (slice0
              (sort (λ a b, score b - score a)
                 (map (λ kv : string * Q, {| label := kv.1; score := kv.2 |})
                    (scores corners circ ar sym)))
              topK)
  | _ => None
  end.

End Predict.

(** Ranked from the best score down: each entry scores at least as much as
    every entry after it. *)
Definition ranked (l : list HeuristicPrediction) : Prop :=
  StronglySorted (λ a b, score b <= score a) l.


(** A rational stand-in for [Math.exp] (its [2/2] Pade approximant), to run
    [predict] on concrete input. *)
Definition sample_exp (x : Q) : Q :=
  (1 + x / 2 + x * x / 12) / (1 - x / 2 + x * x / 12).

(** The features of a round stroke without corners:
    [[corners, circ, ar, sym, lengthNorm]]. *)
Definition round_stroke : list Q := [0; 9 # 10; 1; 9 # 10; 3].

End ShapeAI.

(* ===================================================================== *)
(** ** components/AutoDraw.tsx: bounding box, suggestions, reconciler *)
(* ===================================================================== *)

Module Client.

Import ShapeAI.
Local Open Scope Q_scope.

(** [type Stroke = { id; points: Point[]; color; size; owner? }]: a stroke in
    pixel coordinates, as the component keeps it. *)
Record Stroke := {
  id : string;
  points : list AutoDraw.Point;
  color : string;
  size : Q;
  owner : option string
}.

(** [type BBox = { x:number; y:number; w:number; h:number }] *)
Record BBox := { x : Q; y : Q; w : Q; h : Q }.

(** [a < b] on numbers. *)
Definition Qltb (a b : Q) : bool := negb (Qle_bool b a).

(** The four running extremes of [getBBox]; [None] is the initial
    [Infinity] (for the minima) or [-Infinity] (for the maxima). *)
Record Extent := {
  minX : option Q;
  minY : option Q;
  maxX : option Q;
  maxY : option Q
}.

(** [if (v < m) m = v], with [m] possibly still [Infinity]. *)
Definition lower (v : Q) (m : option Q) : option Q :=
  match m with
  | None => Some v
  | Some m0 => if Qltb v m0 then Some v else Some m0
  end.

(** [if (v > m) m = v], with [m] possibly still [-Infinity]. *)
Definition raise (v : Q) (m : option Q) : option Q :=
  match m with
  | None => Some v
  | Some m0 => if Qltb m0 v then Some v else Some m0
  end.

(** The body of the loop of [getBBox]. *)
Definition extend (e : Extent) (p : AutoDraw.Point) : Extent :=
  {| minX := lower (AutoDraw.x p) (minX e);
     minY := lower (AutoDraw.y p) (minY e);
     maxX := raise (AutoDraw.x p) (maxX e);
     maxY := raise (AutoDraw.y p) (maxY e) |}.

(** [getBBox(pts)].  Without points the corner stays at [Infinity], which
    the rational model of numbers has no value for: [None]. *)
Definition getBBox (pts : list AutoDraw.Point) : option BBox :=
  let e := fold_left extend pts
             {| minX := None; minY := None; maxX := None; maxY := None |} in
  match minX e, minY e, maxX e, maxY e with
  | Some x0, Some y0, Some x1, Some y1 =>
      Some {| x := x0; y := y0; w := Qmax 1 (x1 - x0); h := Qmax 1 (y1 - y0) |}
  | _, _, _, _ => None
  end.

(** [type ShapeLabel = 'circle' | 'rectangle' | 'triangle' | 'star' | 'heart' | 'cloud'] *)
Inductive ShapeLabel := circle | rectangle | triangle | star | heart | cloud.

(** The string a [ShapeLabel] is. *)
Definition shape_name (l : ShapeLabel) : string :=
  match l with
  | circle => "circle"
  | rectangle => "rectangle"
  | triangle => "triangle"
  | star => "star"
  | heart => "heart"
  | cloud => "cloud"
  end.

(** [s.includes(pat)] *)
Fixpoint includes (s pat : string) : bool :=
  String.prefix pat s
  || match s with
     | EmptyString => false
     | String _ s' => includes s' pat
     end.

Section MapToShapeLabel.

(** [String.prototype.toLowerCase], of which the facts below use only that
    it leaves the six lower-case labels as they are. *)
Variable toLowerCase : string → string.

Definition mapToShapeLabel (label : string) : ShapeLabel :=
  let l := toLowerCase label in
  if includes l "star" then star
  else if includes l "cloud" then cloud
  else if includes l "heart" then heart
  else if includes l "triangle" then triangle
  else if includes l "circle" || includes l "round" || includes l "sun" then circle
  else rectangle.

End MapToShapeLabel.

(** Lower-casing of the letters [A]..[Z], every other byte kept: what
    [toLowerCase] does to a string of ASCII characters. *)
Fixpoint ascii_lower (s : string) : string :=
  match s with
  | EmptyString => EmptyString
  | String c s' =>
      let n := Ascii.nat_of_ascii c in
      String (if (65 <=? n)%nat && (n <=? 90)%nat then Ascii.ascii_of_nat (n + 32) else c)
        (ascii_lower s')
  end.

(** The suggestions effect, from the predictions to the ones shown:
    [[
      const preds = predict(feats, 10).filter(p=>p.score>=0.25).sort((a,b)=>b.score-a.score)
      let limit = 3
      if (preds[0]?.score >= 0.6) limit = 1
      else if (preds[0]?.score >= 0.4) limit = 2
      ... preds.slice(0,limit) ...
    ]] *)
Definition shortlist (predicted : list HeuristicPrediction) : list HeuristicPrediction :=
  let preds :=
    sort (λ a b, score b - score a)
      (List.filter (λ p, Qle_bool (25 # 100) (score p)) predicted) in
  let limit : Z :=
    match preds with
    | best :: _ =>
        if Qle_bool (6 # 10) (score best) then 1%Z
        else if Qle_bool (4 # 10) (score best) then 2%Z
        else 3%Z
    | [] => 3%Z
    end in
  slice0 preds limit.

(** The predictions shown for a feature array: [predict(feats, 10)] then the
    selection above. *)
Definition suggest (exp : Q → Q) (feats : list Q) : option (list HeuristicPrediction) :=
  shortlist <$> predict exp feats 10.

(** *** The reconciler: what the socket handlers do to the [strokes] state *)

(** A point as it arrives on the wire: the server's [NPoint] read as the
    component's [NPoint] (the same three fields). *)
Definition of_wire (p : Socket.NPoint) : AutoDraw.NPoint :=
  {| AutoDraw.nx := Socket.nx p; AutoDraw.ny := Socket.ny p; AutoDraw.nt := Socket.t p |}.

Section Reconciler.

(** The product of two doubles, as [denormalizePoint] takes it. *)
Variable fmul : Q → Q → Q.

(** The stroke with its points denormalised against the canvas: the body of
    the [map] in the [state] handler, and the [hydrated] of [stroke_start]. *)
Definition hydrate (canvas : option AutoDraw.DOMRect) (st : Socket.Stroke) : Stroke :=
  {| id := Socket.id st;
     color := Socket.color st;
     size := Socket.size st;
     owner := Socket.owner st;
     points := map (λ p, AutoDraw.denormalizePoint fmul (of_wire p) canvas) (Socket.points st) |}.

(** [s.on('state', ...)]: the snapshot replaces the local strokes. *)
Definition on_state (canvas : option AutoDraw.DOMRect) (state : Socket.RoomState)
    : list Stroke :=
  map (hydrate canvas) (Socket.strokes state).

(** [s.on('stroke_start', ...)]: [setStrokes(prev => [...prev, hydrated])] *)
Definition on_stroke_start (canvas : option AutoDraw.DOMRect) (stroke : Socket.Stroke)
    (prev : list Stroke) : list Stroke :=
  prev ++ [hydrate canvas stroke].

(** [s.on('stroke_append', ...)] for a sender without an open stroke in
    [remoteCurrent], the branch marked [fallback: append to last stroke]. *)
Definition on_stroke_append_fallback (canvas : option AutoDraw.DOMRect)
    (point : Socket.NPoint) (prev : list Stroke) : list Stroke :=
  let p := AutoDraw.denormalizePoint fmul (of_wire point) canvas in
  match prev !! (length prev - 1)%nat with
  | Some last =>
      <[ (length prev - 1)%nat :=
           {| id := id last; points := points last ++ [p]; color := color last;
              size := size last; owner := owner last |} ]> prev
  | None => prev
  end.

End Reconciler.

(** [s.on('clear', () => setStrokes([]))] *)
Definition on_clear (prev : list Stroke) : list Stroke := [].

(** [s.on('undo', () => setStrokes(p => p.slice(0, -1)))] *)
Definition on_undo (prev : list Stroke) : list Stroke := slice0 prev (-1).

(** *** Sample data *)

Definition px (a b c : Q) : AutoDraw.Point :=
  {| AutoDraw.x := a; AutoDraw.y := b; AutoDraw.t := c |}.

Definition sample_path : list AutoDraw.Point :=
  [px 10 40 0; px 30 20 1; px 50 45 2; px 25 60 3].

End Client.

(* ===================================================================== *)
(** ** Further vocabulary for the server *)
(* ===================================================================== *)

Module Terms.

Import Socket.

(** The room an event of a connection acts on: the room of the payload for
    [join_room] and [stroke_start], the room of the closure for the guarded
    handlers, none for the lifecycle events. *)
Definition acted_room (st : Server) (sock : SocketId) (e : Event) : option string :=
  match e with
  | join_room room => Some room
  | stroke_start room _ => Some room
  | connection | disconnect => None
  | _ => current_room st sock
  end.

(** The [stroke_append] events of one connection for a list of payloads. *)
Definition appends (sock : SocketId) (ps : list (string * NPoint))
    : list (SocketId * Event) :=
  map (λ rp : string * NPoint, (sock, stroke_append rp.1 rp.2)) ps.

(** A stroke with further points at its end. *)
Definition extended (s : Stroke) (ps : list NPoint) : Stroke :=
  {| id := id s; points := points s ++ ps; color := color s;
     size := size s; owner := owner s |}.

(** The six keys of the record [s] of [predict], in the order of the
    literal. *)
Definition six : list string :=
  ["circle"; "rectangle"; "triangle"; "star"; "heart"; "cloud"].

(** The number of points a room holds, over all its strokes. *)
Definition point_count (ss : list Stroke) : nat :=
  sum_list (map (λ s, length (points s)) ss).

End Terms.

(* ===================================================================== *)
(** ** Facts about pages/api/socket.ts *)
(* ===================================================================== *)

Module SocketSpec.

Import Socket.

(** *** Concrete runs *)

Example scenario1_strokes :
  room_strokes (run scenario1 init) "R1"
  = [ mk_stroke "s1" [pt (1#10) (1#10) 0; pt (2#10) (2#10) 1] "A" ].
Proof. vm_compute. reflexivity. Qed.

Example scenario2_undo :
  room_strokes
    (run (scenario1 ++ [("B", connection); ("B", join_room "R1"); ("B", undo "R1")]) init)
    "R1" = [].
Proof. vm_compute. reflexivity. Qed.

Example scenario3_join :
  (handle "C" (join_room "R1")
     (run (scenario1 ++ [("B", connection); ("B", join_room "R1"); ("B", undo "R1")]) init)).2
  = [ (socket_emit "C", m_state {| strokes := [] |});
      (socket_to "C" "R1", m_user_joined "C") ].
Proof. vm_compute. reflexivity. Qed.

(** *** The registry under one handler *)

Lemma room_strokes_insert st m r s r' :
  room_strokes (set_rooms st (<[ r := s ]> m)) r'
  = if decide (r = r') then strokes s else from_option strokes [] (m !! r').
Proof.
  unfold room_strokes, set_rooms; simpl.
  rewrite lookup_insert. by case_decide.
Qed.

Lemma current_room_Some st sock r :
  current_room st sock = Some r ↔ roomId st !! sock = Some r ∧ r ≠ "".
Proof.
  unfold current_room. destruct (roomId st !! sock) as [r0|].
  - destruct (decide (r0 = "")) as [->|Hne]; split.
    + discriminate.
    + intros [[= <-] Hr]. by destruct Hr.
    + by intros [= <-].
    + by intros [[= <-] _].
  - split; [discriminate | by intros [? _]].
Qed.

Lemma pop_snoc (ss : list Stroke) (s : Stroke) : pop (ss ++ [s]) = ss.
Proof. apply removelast_last. Qed.

Lemma push_to_last_snoc (ss : list Stroke) (s : Stroke) (p : NPoint) :
  push_to_last (ss ++ [s]) p
  = ss ++ [ {| id := id s; points := points s ++ [p]; color := color s;
               size := size s; owner := owner s |} ].
Proof.
  unfold push_to_last. rewrite length_app; simpl.
  replace (length ss + 1 - 1)%nat with (length ss + 0)%nat by lia.
  rewrite lookup_app_r by lia.
  replace (length ss + 0 - length ss)%nat with 0%nat by lia. simpl.
  rewrite insert_app_r. reflexivity.
Qed.

Lemma push_to_last_nil (p : NPoint) : push_to_last [] p = [].
Proof. reflexivity. Qed.

(** A point arriving on [stroke_append] goes to the last stroke of the
    sender's room, whichever stroke that is. *)
Lemma stroke_append_strokes st sock r rm p :
  current_room st sock = Some r →
  room_strokes (handle sock (stroke_append rm p) st).1 r
  = push_to_last (room_strokes st r) p.
Proof.
  intros Hr. simpl. unfold on_stroke_append. rewrite Hr.
  unfold room_strokes at 2.
  destruct (rooms st !! r) as [s|] eqn:Hs; simpl.
  - rewrite room_strokes_insert. by rewrite decide_True.
  - unfold room_strokes. by rewrite Hs.
Qed.

(** *** C7 *)

(** With a payload object.  A connection that has not joined a room
    ([roomId] still [null], or the empty string, which the guard treats
    alike) sends [cursor], [stroke_append], [stroke_end], [undo] or
    [clear]: the process state is exactly what it was, registry and session
    included, and nothing is emitted. *)
Theorem unjoined_is_noop (st : Server) (sock : SocketId) (e : Event) :
  current_room st sock = None →
  guarded e = true →
  handle sock e st = (st, []) ∧ broadcast sock e st = [].
Proof.
  intros Hnone Hg. unfold broadcast.
  destruct e; try discriminate Hg; simpl;
    unfold on_cursor, on_stroke_append, on_stroke_end, on_clear, on_undo;
    rewrite Hnone; by split.
Qed.

Lemma unjoined_is_noop_witness :
  current_room init "A" = None ∧ guarded (undo "R1") = true ∧
  handle "A" (undo "R1") init = (init, []) ∧ broadcast "A" (undo "R1") init = [].
Proof.
  split; [reflexivity | split; [reflexivity |]].
  apply (unjoined_is_noop init "A" (undo "R1")); reflexivity.
Defined.

(** Without a payload.  Every handler but the one of [cursor] throws,
    whatever the state and whether or not the connection has a room. *)
Lemma bare_event_throws (sock : SocketId) (n : EventName) (st : Server) :
  n ≠ ev_cursor → receive sock (bare n) st = throws.
Proof. intros Hn. by destruct n. Qed.

(** C7. A connection that has joined no room emits [undo],
    [stroke_append], [stroke_end] or [clear] with no payload: the handler
    throws while it binds its parameter, before the [roomId] guard is
    reached.  The handler of [cursor], which does not take its payload
    apart, returns and leaves the state alone. *)
Theorem unjoined_bare_event_throws :
  current_room init "A" = None ∧
  receive "A" (bare ev_undo) init = throws ∧
  receive "A" (bare ev_stroke_append) init = throws ∧
  receive "A" (bare ev_stroke_end) init = throws ∧
  receive "A" (bare ev_clear) init = throws ∧
  receive "A" (bare ev_cursor) init = returns init [].
Proof. repeat split. Qed.

(** *** C4 *)

(** No connection has the room of the empty id as the room the guard lets
    through. *)
Lemma current_room_not_empty_id (st : Server) (sock : SocketId) :
  current_room st sock ≠ Some "".
Proof. intros H. apply current_room_Some in H as [_ H]. by apply H. Qed.




Example undo_two_open_strokes :
  room_strokes (handle "A" (undo "R1") (run two_open_strokes init)).1 "R1"
  = [ mk_stroke "s1" [pt (1#10) (1#10) 0] "A" ].
Proof. vm_compute. reflexivity. Qed.

(** *** C5 *)





(** *** C2 *)

(** [stroke_start] with an id the room already holds: the registry changes,
    the room now lists the id twice. *)
Lemma stroke_start_same_id_changes_room :
  (∃ s, s ∈ room_strokes (run scenario1 init) "R1" ∧ id s = "s1") ∧
  rooms (handle "B" (stroke_start "R1" (mk_stroke "s1" [pt (7#10) (7#10) 5] "B"))
           (run scenario1 init)).1 !! "R1"
  ≠ rooms (run scenario1 init) !! "R1" ∧
  id <$> room_strokes
           (handle "B" (stroke_start "R1" (mk_stroke "s1" [pt (7#10) (7#10) 5] "B"))
              (run scenario1 init)).1 "R1"
  = ["s1"; "s1"].
Proof.
  split; [|split].
  - exists (mk_stroke "s1" [pt (1#10) (1#10) 0; pt (2#10) (2#10) 1] "A").
    split; [|reflexivity]. rewrite scenario1_strokes. left.
  - vm_compute. discriminate.
  - vm_compute. reflexivity.
Qed.

(** C2, amended. [stroke_start] appends the stroke of the payload to the end
    of the strokes of the room named in the payload, with no look at the ids
    already there, and touches no other room. *)
Theorem stroke_start_always_appends
    (st : Server) (sock : SocketId) (room : string) (stroke : Stroke) :
  room_strokes (handle sock (stroke_start room stroke) st).1 room
  = room_strokes st room ++ [stroke] ∧
  (∀ r', r' ≠ room →
     rooms (handle sock (stroke_start room stroke) st).1 !! r' = rooms st !! r').
Proof.
  simpl. unfold room_strokes, get_or_new. simpl. split.
  - rewrite lookup_insert_eq. simpl. by destruct (rooms st !! room).
  - intros r' Hne. by rewrite lookup_insert_ne.
Qed.

(** *** C10 *)

Lemma guarded_keeps_roomId (sock : SocketId) (e : Event) (st : Server) :
  guarded e = true → roomId (handle sock e st).1 = roomId st.
Proof.
  intros Hg. destruct e; try discriminate Hg; simpl;
    unfold on_cursor, on_stroke_append, on_stroke_end, on_clear, on_undo;
    destruct (current_room st sock); try done;
    destruct (rooms st !! s); done.
Qed.

(** C10. For a connection whose room is [A], [stroke_append], [stroke_end],
    [undo] and [clear] do the same whatever room their payload names; they
    leave every room other than [A] as it is, address every emit to [A] and
    keep the [roomId] of every connection.  Of the handlers of client
    messages only [join_room] and [stroke_start] set a [roomId]: to the room
    of their payload, for the sender. *)
Theorem payload_room_is_ignored (st : Server) (sock : SocketId) (A : string) (e : Event) :
  current_room st sock = Some A →
  room_scoped e = true →
  (∀ rm, handle sock (with_room rm e) st = handle sock e st) ∧
  (∀ r, r ≠ A → rooms (handle sock e st).1 !! r = rooms st !! r) ∧
  Forall (λ em : Emit, target_room em.1 = Some A) (handle sock e st).2 ∧
  (∀ sock' e' st0, guarded e' = true →
     roomId (handle sock' e' st0).1 = roomId st0) ∧
  (∀ sock' rm st0,
     roomId (handle sock' (join_room rm) st0).1 = <[ sock' := rm ]> (roomId st0)) ∧
  (∀ sock' rm s st0,
     roomId (handle sock' (stroke_start rm s) st0).1 = <[ sock' := rm ]> (roomId st0)).
Proof.
  intros HA He. repeat split.
  - intros rm. by destruct e.
  - intros r Hne. destruct e; try discriminate He; simpl;
      unfold on_stroke_append, on_stroke_end, on_clear, on_undo;
      rewrite HA; try done;
      destruct (rooms st !! A) eqn:Hs; simpl; try done;
      by rewrite lookup_insert_ne.
  - destruct e; try discriminate He; simpl;
      unfold on_stroke_append, on_stroke_end, on_clear, on_undo;
      rewrite HA; try (repeat constructor; done);
      destruct (rooms st !! A); simpl; repeat constructor.
  - intros sock' e' st0. apply guarded_keeps_roomId.
Qed.

Lemma payload_room_is_ignored_witness :
  current_room (run two_open_strokes init) "A" = Some "R1" ∧
  room_scoped (stroke_append "R1" (pt (2#10) (2#10) 1)) = true ∧
  handle "A" (stroke_append "elsewhere" (pt (2#10) (2#10) 1))
    (run two_open_strokes init)
  = handle "A" (stroke_append "R1" (pt (2#10) (2#10) 1))
      (run two_open_strokes init).
Proof.
  split; [vm_compute; reflexivity | split; [reflexivity |]].
  apply (payload_room_is_ignored (run two_open_strokes init) "A" "R1"
           (stroke_append "R1" (pt (2#10) (2#10) 1))
           ltac:(vm_compute; reflexivity) ltac:(reflexivity)).
Defined.

(** *** C3 *)

Lemma join_room_keeps_strokes (st : Server) (sock : SocketId) (room r : string) :
  room_strokes (handle sock (join_room room) st).1 r = room_strokes st r.
Proof.
  simpl. unfold room_strokes, get_or_new. simpl.
  rewrite lookup_insert. case_decide as Heq; [subst r|done].
  simpl. by destruct (rooms st !! room).
Qed.

(** C3. After any run of the server from the empty registry, a [join_room]
    is answered, to the joining socket alone, with a [state] message whose
    RoomState is the one the registry holds for the room after the join and
    has the strokes the registry held for it before; the join changes the
    strokes of no room. *)
Theorem join_snapshot_is_room_state
    (tr : list (SocketId * Event)) (sock : SocketId) (room : string) :
  ∃ snap : RoomState,
    (handle sock (join_room room) (run tr init)).2
    = [ (socket_emit sock, m_state snap); (socket_to sock room, m_user_joined sock) ] ∧
    recipients (handle sock (join_room room) (run tr init)).1 (socket_emit sock)
    = {[ sock ]} ∧
    rooms (handle sock (join_room room) (run tr init)).1 !! room = Some snap ∧
    strokes snap = room_strokes (run tr init) room ∧
    (∀ r, room_strokes (handle sock (join_room room) (run tr init)).1 r
          = room_strokes (run tr init) r).
Proof.
  exists (get_or_new (run tr init) room). repeat split.
  - simpl. apply lookup_insert_eq.
  - unfold get_or_new, room_strokes. by destruct (rooms (run tr init) !! room).
  - intros r. apply join_room_keeps_strokes.
Qed.

(** *** Reachable states *)

Lemma lookup_socket_join (sock : SocketId) (room r : string)
    (a : gmap string (gset string)) :
  default ∅ (socket_join sock room a !! r)
  = if decide (room = r) then default ∅ (a !! r) ∪ {[ sock ]} else default ∅ (a !! r).
Proof.
  unfold socket_join. rewrite lookup_insert.
  case_decide as Heq; [by subst r | done].
Qed.

Lemma lookup_leave_all (sock : SocketId) (r : string)
    (a : gmap string (gset string)) :
  default ∅ (leave_all sock a !! r) = default ∅ (a !! r) ∖ {[ sock ]}.
Proof.
  unfold leave_all. rewrite lookup_fmap.
  destruct (a !! r); simpl; [done | set_solver].
Qed.

Lemma members_set_rooms (st : Server) (m : gmap string RoomState) (r : string) :
  members (set_rooms st m) r = members st r.
Proof. reflexivity. Qed.

Lemma consistent_init : consistent init.
Proof. intros sock r H. simpl in H. by rewrite lookup_empty in H. Qed.

Lemma consistent_set_rooms (st : Server) (r : string) (s : RoomState) :
  consistent st → consistent (set_rooms st (<[ r := s ]> (rooms st))).
Proof.
  intros Hc sock r0 H. destruct (Hc sock r0 H) as [Hs Hm]. split; [|done].
  simpl. rewrite lookup_insert. by case_decide.
Qed.

Lemma consistent_enter (st : Server) (sock : SocketId) (room : string) (s : RoomState) :
  consistent st →
  consistent {| rooms := <[ room := s ]> (rooms st);
                roomId := <[ sock := room ]> (roomId st);
                adapter := socket_join sock room (adapter st) |}.
Proof.
  intros Hc sock0 r0. unfold members; simpl.
  rewrite lookup_insert, lookup_socket_join.
  case_decide as Hsock.
  - intros [= <-]. rewrite lookup_insert_eq, decide_True by done.
    split; [done | set_solver].
  - intros H. destruct (Hc sock0 r0 H) as [Hs Hm]. unfold members in Hm. split.
    + rewrite lookup_insert. by case_decide.
    + case_decide; set_solver.
Qed.

Lemma consistent_handle (sock : SocketId) (e : Event) (st : Server) :
  consistent st → consistent (handle sock e st).1.
Proof.
  intros Hc. destruct e; simpl.
  - intros sock0 r0. unfold members; simpl. rewrite lookup_socket_join.
    intros H. apply lookup_delete_Some in H as [Hne H].
    destruct (Hc sock0 r0 H) as [Hs Hm]. unfold members in Hm.
    split; [done | case_decide; set_solver].
  - by apply consistent_enter.
  - unfold on_cursor. by destruct (current_room st sock).
  - by apply consistent_enter.
  - unfold on_stroke_append. destruct (current_room st sock) as [r|]; [|done].
    destruct (rooms st !! r); [|done]. by apply consistent_set_rooms.
  - unfold on_stroke_end. by destruct (current_room st sock).
  - unfold on_clear. destruct (current_room st sock) as [r|]; [|done].
    simpl. destruct (rooms st !! r); [|done]. by apply consistent_set_rooms.
  - unfold on_undo. destruct (current_room st sock) as [r|]; [|done].
    destruct (rooms st !! r); [|done]. by apply consistent_set_rooms.
  - intros sock0 r0. unfold members; simpl. rewrite lookup_leave_all.
    intros H. apply lookup_delete_Some in H as [Hne H].
    destruct (Hc sock0 r0 H) as [Hs Hm]. unfold members in Hm.
    split; [done | set_solver].
Qed.

Lemma consistent_run (tr : list (SocketId * Event)) (st : Server) :
  consistent st → consistent (run tr st).
Proof.
  revert st. induction tr as [|[sock e] tr IH]; intros st Hc; [done|].
  simpl. apply IH. by apply consistent_handle.
Qed.

(** *** C6 *)

(** In a state the server has reached, an event from a connection whose
    room is [r] is relayed as follows.  [stroke_append] and [stroke_end]
    go, with the sender's socket id, to the members of [r] other than the
    sender; so does [cursor], with the id of its payload if it has one and
    the sender's socket id otherwise; [stroke_start] goes, with the
    sender's socket id, to the members of the room named in its payload
    (which becomes the sender's room) other than the sender; [undo] and
    [clear] go to all members of [r], and the sender is one of them. *)
Theorem relay_recipients
    (tr : list (SocketId * Event)) (sock : SocketId) (r : string) (e : Event) :
  current_room (run tr init) sock = Some r →
  match e with
  | cursor payload =>
      broadcast sock e (run tr init)
      = [ (members (run tr init) r ∖ {[ sock ]},
           m_cursor (cursor_tag sock payload) payload) ] ∧
      (c_id payload = None → cursor_tag sock payload = sock)
  | stroke_start room stroke =>
      broadcast sock e (run tr init)
      = [ (members (handle sock e (run tr init)).1 room ∖ {[ sock ]},
           m_stroke_start sock stroke) ] ∧
      current_room (handle sock e (run tr init)).1 sock
      = (if decide (room = "") then None else Some room)
  | stroke_append _ point =>
      broadcast sock e (run tr init)
      = [ (members (run tr init) r ∖ {[ sock ]}, m_stroke_append sock point) ]
  | stroke_end _ =>
      broadcast sock e (run tr init)
      = [ (members (run tr init) r ∖ {[ sock ]}, m_stroke_end sock) ]
  | undo _ =>
      broadcast sock e (run tr init) = [ (members (run tr init) r, m_undo) ] ∧
      sock ∈ members (run tr init) r
  | clear _ =>
      broadcast sock e (run tr init) = [ (members (run tr init) r, m_clear) ] ∧
      sock ∈ members (run tr init) r
  | connection | join_room _ | disconnect => True
  end.
Proof.
  intros Hr.
  pose proof (consistent_run tr init consistent_init) as Hc.
  apply current_room_Some in Hr as Hr'. destruct Hr' as [Hid Hne].
  destruct (Hc sock r Hid) as [[s Hs] Hm].
  unfold broadcast.
  destruct e; simpl;
    unfold on_cursor, on_stroke_append, on_stroke_end, on_clear, on_undo;
    rewrite ?Hr, ?Hs; simpl; try done.
  - split; [done|]. unfold cursor_tag. by intros ->.
  - split; [done|]. unfold current_room; simpl. by rewrite lookup_insert_eq.
Qed.

Lemma relay_recipients_witness :
  current_room (run two_open_strokes init) "A" = Some "R1" ∧
  broadcast "A" (undo "R1") (run two_open_strokes init)
  = [ (members (run two_open_strokes init) "R1", m_undo) ] ∧
  "A" ∈ members (run two_open_strokes init) "R1".
Proof.
  split; [vm_compute; reflexivity |].
  apply (relay_recipients two_open_strokes "A" "R1" (undo "R1")).
  vm_compute; reflexivity.
Defined.

Example relay_stroke_append_two_clients :
  broadcast "A" (stroke_append "R1" (pt (2#10) (2#10) 1)) (run two_open_strokes init)
  = [ ({[ "B" ]}, m_stroke_append "A" (pt (2#10) (2#10) 1)) ].
Proof. vm_compute. reflexivity. Qed.

Example relay_undo_two_clients :
  broadcast "B" (undo "R1") (run two_open_strokes init)
  = [ ({[ "A"; "B" ]}, m_undo) ].
Proof. vm_compute. reflexivity. Qed.

(** C6. [A] and [B] are in room [R1].  [A] sends a [cursor] whose payload
    has an [id] field, [B]: the message goes to the other member of the
    room, [B], and the id it carries is [B], not the sender's. *)
Theorem cursor_payload_id_replaces_sender :
  current_room (run two_open_strokes init) "A" = Some "R1" ∧
  broadcast "A"
    (cursor {| c_id := Some "B"; c_room := "R1"; c_nx := 1 # 2; c_ny := 1 # 2;
               c_color := "#111827" |})
    (run two_open_strokes init)
  = [ ({[ "B" ]},
       m_cursor "B"
         {| c_id := Some "B"; c_room := "R1"; c_nx := 1 # 2; c_ny := 1 # 2;
            c_color := "#111827" |}) ].
Proof. split; vm_compute; reflexivity. Qed.

(** *** C1 *)

(** Had [B] started its stroke first, the same point would have landed on
    [s1]: where the point goes depends on the arrival order of the two
    [stroke_start] events. *)
Example append_depends_on_arrival_order :
  room_strokes
    (run [ ("A", join_room "R1"); ("B", join_room "R1");
           ("B", stroke_start "R1" (mk_stroke "s2" [pt (5#10) (5#10) 0] "B"));
           ("A", stroke_start "R1" (mk_stroke "s1" [pt (1#10) (1#10) 0] "A"));
           ("A", stroke_append "R1" (pt (2#10) (2#10) 1)) ] init)
    "R1"
  = [ mk_stroke "s2" [pt (5#10) (5#10) 0] "B";
      mk_stroke "s1" [pt (1#10) (1#10) 0; pt (2#10) (2#10) 1] "A" ].
Proof. vm_compute. reflexivity. Qed.

(** C1. Two connections hold an open stroke each in room [R1]: [s1] of [A],
    started first, and [s2] of [B].  The next point [A] sends for its stroke
    is pushed onto [s2], the last stroke of the room; [s1] keeps its single
    point. *)
Theorem append_lands_on_last_stroke :
  room_strokes
    (run (two_open_strokes ++ [("A", stroke_append "R1" (pt (2#10) (2#10) 1))]) init)
    "R1"
  = [ mk_stroke "s1" [pt (1#10) (1#10) 0] "A";
      mk_stroke "s2" [pt (5#10) (5#10) 0; pt (2#10) (2#10) 1] "B" ].
Proof. vm_compute. reflexivity. Qed.


End SocketSpec.

(* ===================================================================== *)
(** ** Facts about components/AutoDraw.tsx *)
(* ===================================================================== *)

Module AutoDrawSpec.

Import AutoDraw.
Local Open Scope Q_scope.

(** Both helpers copy the timestamp, whatever the canvas and however the
    quotient and the product round. *)
Lemma helpers_keep_timestamp
    (fdiv fmul : Q → Q → Q) (p : Point) (c1 c2 : option DOMRect) :
  t (denormalizePoint fmul (normalizePoint fdiv p c1) c2) = t p.
Proof. by destruct c1, c2. Qed.

(** Without a canvas both helpers return the origin: the point is lost. *)
Lemma roundtrip_null_canvas (fdiv fmul : Q → Q → Q) (p : Point) :
  denormalizePoint fmul (normalizePoint fdiv p None) None
  = {| x := 0; y := 0; t := t p |}.
Proof. reflexivity. Qed.

End AutoDrawSpec.

(* ===================================================================== *)
(** ** Facts about hooks/useShapeAI.ts *)
(* ===================================================================== *)

Module ShapeAISpec.

Import ShapeAI.
Local Open Scope Q_scope.



(** *** The sort *)

Section Sort.

Context {A : Type} (key : A → Q).

Let cmp (a b : A) : Q := key b - key a.
Let R (a b : A) : Prop := key b <= key a.

Lemma insert_Forall (P : A → Prop) (a : A) (l : list A) :
  P a → Forall P l → Forall P (insert cmp a l).
Proof.
  intros Ha Hl. induction Hl as [|b l Hb Hl IH]; simpl.
  - by constructor.
  - destruct (Qle_bool (cmp a b) 0); repeat constructor; done.
Qed.

Lemma sort_Forall (P : A → Prop) (l : list A) :
  Forall P l → Forall P (sort cmp l).
Proof.
  induction 1 as [|a l Ha Hl IH]; simpl; [constructor|].
  by apply insert_Forall.
Qed.

Lemma insert_length (a : A) (l : list A) :
  length (insert cmp a l) = S (length l).
Proof.
  induction l as [|b l IH]; simpl; [done|].
  destruct (Qle_bool (cmp a b) 0); simpl; by rewrite ?IH.
Qed.

Lemma sort_length (l : list A) : length (sort cmp l) = length l.
Proof.
  induction l as [|a l IH]; simpl; [done|]. by rewrite insert_length, IH.
Qed.

Lemma insert_HdRel (a b : A) (l : list A) :
  R b a → HdRel R b l → HdRel R b (insert cmp a l).
Proof.
  intros Hba Hl. destruct l as [|c l]; simpl.
  - by constructor.
  - apply HdRel_inv in Hl.
    destruct (Qle_bool (cmp a c) 0); by constructor.
Qed.

Lemma insert_Sorted (a : A) (l : list A) :
  Sorted R l → Sorted R (insert cmp a l).
Proof.
  induction 1 as [|b l Hl IH Hb]; simpl.
  - by repeat constructor.
  - destruct (Qle_bool (cmp a b) 0) eqn:Hab.
    + apply Qle_bool_iff in Hab. unfold cmp in Hab.
      constructor; [by constructor|]. constructor. unfold R. lra.
    + constructor; [done|]. apply insert_HdRel; [|done].
      assert (¬ cmp a b <= 0) as Hn.
      { intros Hle. apply Qle_bool_iff in Hle. congruence. }
      unfold cmp in Hn. unfold R. lra.
Qed.

Lemma sort_Sorted (l : list A) : Sorted R (sort cmp l).
Proof.
  induction l as [|a l IH]; simpl; [constructor | by apply insert_Sorted].
Qed.

Lemma sort_StronglySorted (l : list A) : StronglySorted R (sort cmp l).
Proof.
  apply Sorted_StronglySorted; [|apply sort_Sorted].
  intros a b c Hab Hbc. unfold R in *. lra.
Qed.

End Sort.

(** *** The slice *)

Lemma take_StronglySorted {A : Type} (R : A → A → Prop) (n : nat) (l : list A) :
  StronglySorted R l → StronglySorted R (take n l).
Proof.
  intros Hl. revert n. induction Hl as [|a l Hl IH Ha]; intros [|n]; simpl;
    try constructor; [apply IH|].
  apply Forall_take. done.
Qed.


(** *** The scores *)

Section Scores.

Variable exp : Q → Q.




End Scores.



(** An array of four features is scored like one of five; one of three is
    not in the model. *)
Example predict_four_features :
  predict sample_exp [0; 9 # 10; 1; 9 # 10] 6 = predict sample_exp round_stroke 6
  ∧ predict sample_exp [0; 9 # 10; 1] 6 = None.
Proof. split; reflexivity. Qed.

(** A round stroke without corners: circle first, then triangle, then
    rectangle; the two zero scores keep their key order. *)
Example predict_round_stroke :
  (map label <$> predict sample_exp round_stroke 10)
  = Some ["circle"; "triangle"; "rectangle"; "heart"; "star"; "cloud"]
  ∧ (map label <$> predict sample_exp round_stroke 3)
  = Some ["circle"; "triangle"; "rectangle"].
Proof. split; vm_compute; reflexivity. Qed.

(** [slice(0, topK)] with a negative [topK] drops entries from the back. *)
Example predict_negative_count :
  (length <$> predict sample_exp round_stroke (-1)) = Some 5%nat.
Proof. vm_compute. reflexivity. Qed.

End ShapeAISpec.

(* ===================================================================== *)
(** ** Further facts about pages/api/socket.ts *)
(* ===================================================================== *)

Module SocketLaws.

Import Socket Terms SocketSpec.

(** *** The registry and the rooms of socket.io over time *)

Lemma handle_keeps_room (sock : SocketId) (e : Event) (st : Server) (r : string) :
  is_Some (rooms st !! r) → is_Some (rooms (handle sock e st).1 !! r).
Proof.
  intros Hr.
  assert (∀ r0 s, is_Some (<[ r0 := s ]> (rooms st) !! r)) as Hins.
  { intros r0 s. rewrite lookup_insert. by case_decide. }
  destruct e; simpl; try done;
    unfold on_cursor, on_stroke_append, on_stroke_end, on_clear, on_undo;
    try apply Hins;
    destruct (current_room st sock) as [r0|]; simpl; try done;
    destruct (rooms st !! r0); simpl; try done; apply Hins.
Qed.

(** X1. A room the registry holds is never evicted: whatever events follow,
    from whichever connections, the registry still holds a RoomState for it. *)
Theorem rooms_are_never_evicted
    (tr : list (SocketId * Event)) (st : Server) (r : string) :
  is_Some (rooms st !! r) → is_Some (rooms (run tr st) !! r).
Proof.
  revert st. induction tr as [|[sock e] tr IH]; intros st Hr; [done|].
  simpl. apply IH. by apply handle_keeps_room.
Qed.

Lemma rooms_are_never_evicted_witness :
  is_Some (rooms (run scenario1 init) !! "R1") ∧
  is_Some (rooms (run [("B", join_room "R2"); ("A", clear "R1"); ("A", disconnect)]
                    (run scenario1 init)) !! "R1").
Proof.
  assert (is_Some (rooms (run scenario1 init) !! "R1")) as H.
  { vm_compute. eauto. }
  split; [exact H |].
  exact (rooms_are_never_evicted
           [("B", join_room "R2"); ("A", clear "R1"); ("A", disconnect)]
           (run scenario1 init) "R1" H).
Defined.

(** X2. No handler takes a socket out of a socket.io room: only the
    disconnection of the socket itself does.  In particular a connection
    that moves on to another room stays a member of the room it was in. *)
Theorem membership_persists
    (sock : SocketId) (e : Event) (st : Server) (sock0 : SocketId) (r : string) :
  sock0 ∈ members st r →
  (e = disconnect → sock0 ≠ sock) →
  sock0 ∈ members (handle sock e st).1 r.
Proof.
  intros Hm Hd.
  assert (∀ room, sock0 ∈ default ∅ (socket_join sock room (adapter st) !! r)) as Hj.
  { intros room. rewrite lookup_socket_join. unfold members in Hm.
    case_decide; set_solver. }
  destruct e; simpl; unfold members; simpl; try apply Hj;
    unfold on_cursor, on_stroke_append, on_stroke_end, on_clear, on_undo;
    try (destruct (current_room st sock) as [r0|]; simpl; try done;
         destruct (rooms st !! r0); done).
  rewrite lookup_leave_all. unfold members in Hm.
  specialize (Hd eq_refl). set_solver.
Qed.

Lemma membership_persists_witness :
  "A" ∈ members (run scenario1 init) "R1" ∧
  (join_room "R2" = disconnect → "A" ≠ "A") ∧
  "A" ∈ members (handle "A" (join_room "R2") (run scenario1 init)).1 "R1".
Proof.
  assert ("A" ∈ members (run scenario1 init) "R1") as H.
  { apply (bool_decide_unpack _). vm_compute. exact I. }
  assert (join_room "R2" = disconnect → "A" ≠ "A") as H' by discriminate.
  split; [exact H | split; [exact H' |]].
  exact (membership_persists "A" (join_room "R2") (run scenario1 init) "A" "R1" H H').
Defined.

(** A connection that has moved from [R1] to [R2] is still told of an
    [undo] in [R1]. *)
Example moved_on_still_hears_old_room :
  broadcast "B" (undo "R1")
    (run (two_open_strokes ++ [("A", join_room "R2")]) init)
  = [ ({[ "A"; "B" ]}, m_undo) ].
Proof. vm_compute. reflexivity. Qed.

(** X3. In every state the server reaches from the empty registry, a
    connection whose [roomId] is set has a RoomState for that room in the
    registry and is a socket.io member of that room. *)
Theorem tracked_room_exists_and_is_joined
    (tr : list (SocketId * Event)) (sock : SocketId) (r : string) :
  roomId (run tr init) !! sock = Some r →
  is_Some (rooms (run tr init) !! r) ∧ sock ∈ members (run tr init) r.
Proof.
  intros H. by apply (consistent_run tr init consistent_init).
Qed.

Lemma tracked_room_exists_and_is_joined_witness :
  roomId (run two_open_strokes init) !! "B" = Some "R1" ∧
  is_Some (rooms (run two_open_strokes init) !! "R1") ∧
  "B" ∈ members (run two_open_strokes init) "R1".
Proof.
  assert (roomId (run two_open_strokes init) !! "B" = Some "R1") as H.
  { vm_compute. reflexivity. }
  split; [exact H |].
  exact (tracked_room_exists_and_is_joined two_open_strokes "B" "R1" H).
Defined.

(** *** How the handlers compose *)

Lemma current_room_after_start (sock : SocketId) (room : string) (k : Stroke) (st : Server) :
  room ≠ "" →
  current_room (handle sock (stroke_start room k) st).1 sock = Some room.
Proof.
  intros Hne. unfold current_room; simpl. rewrite lookup_insert_eq.
  by rewrite decide_False.
Qed.

Lemma start_strokes (sock : SocketId) (room : string) (k : Stroke) (st : Server) :
  room_strokes (handle sock (stroke_start room k) st).1 room
  = room_strokes st room ++ [k].
Proof.
  simpl. unfold room_strokes, get_or_new. simpl.
  rewrite lookup_insert_eq. simpl. by destruct (rooms st !! room).
Qed.

Lemma undo_strokes (sock : SocketId) (r rm : string) (st : Server) :
  current_room st sock = Some r →
  room_strokes (handle sock (undo rm) st).1 r = pop (room_strokes st r).
Proof.
  intros Hr. simpl. unfold on_undo. rewrite Hr. unfold room_strokes at 2.
  destruct (rooms st !! r) as [s|] eqn:Hs; simpl.
  - rewrite room_strokes_insert. by rewrite decide_True.
  - unfold room_strokes. by rewrite Hs.
Qed.

(** X4. [undo] straight after one's own [stroke_start] takes the new stroke
    back: the room, if its id is not the empty string, has the strokes it
    had before the two events. *)
Theorem undo_reverts_stroke_start
    (sock : SocketId) (room rm : string) (k : Stroke) (st : Server) :
  room ≠ "" →
  room_strokes (handle sock (undo rm) (handle sock (stroke_start room k) st).1).1 room
  = room_strokes st room.
Proof.
  intros Hne.
  rewrite undo_strokes by by apply current_room_after_start.
  rewrite start_strokes. apply pop_snoc.
Qed.

Lemma undo_reverts_stroke_start_witness :
  "R1" ≠ "" ∧
  room_strokes
    (handle "B" (undo "R1")
       (handle "B" (stroke_start "R1" (mk_stroke "s9" [pt (3#10) (3#10) 0] "B"))
          (run scenario1 init)).1).1 "R1"
  = room_strokes (run scenario1 init) "R1".
Proof.
  assert ("R1" ≠ "") as H by discriminate.
  split; [exact H |].
  exact (undo_reverts_stroke_start "B" "R1" "R1"
           (mk_stroke "s9" [pt (3#10) (3#10) 0] "B") (run scenario1 init) H).
Defined.

Lemma current_room_after_append (sock sock' : SocketId) (rm : string) (p : NPoint)
    (st : Server) :
  current_room (handle sock (stroke_append rm p) st).1 sock' = current_room st sock'.
Proof.
  unfold current_room. by rewrite guarded_keeps_roomId.
Qed.

Lemma appends_extend_last (sock : SocketId) (r : string) (ps : list (string * NPoint)) :
  ∀ (st : Server) (ss : list Stroke) (s : Stroke),
    current_room st sock = Some r →
    room_strokes st r = ss ++ [s] →
    room_strokes (run (appends sock ps) st) r = ss ++ [extended s (map snd ps)].
Proof.
  induction ps as [|[rm p] ps IH]; intros st ss s Hr Hs.
  - simpl. rewrite Hs. unfold extended. rewrite app_nil_r. by destruct s.
  - change (run (appends sock ((rm, p) :: ps)) st)
      with (run (appends sock ps) (handle sock (stroke_append rm p) st).1).
    rewrite (IH _ ss (extended s [p])).
    + unfold extended; simpl. by rewrite <- app_assoc.
    + by rewrite current_room_after_append.
    + rewrite stroke_append_strokes by done. rewrite Hs. apply push_to_last_snoc.
Qed.

(** X5. A connection starts a stroke in a room (not the empty-string room)
    and then sends points for it, with no other event in between: the
    stroke the registry holds has the points of the [stroke_start] followed
    by the appended points, in the order sent, none lost and none twice;
    the strokes before it are as they were. *)
Theorem appended_points_keep_send_order
    (sock : SocketId) (room : string) (k : Stroke) (ps : list (string * NPoint))
    (st : Server) :
  room ≠ "" →
  room_strokes (run (appends sock ps) (handle sock (stroke_start room k) st).1) room
  = room_strokes st room ++ [extended k (map snd ps)].
Proof.
  intros Hne. apply appends_extend_last.
  - by apply current_room_after_start.
  - apply start_strokes.
Qed.

Lemma appended_points_keep_send_order_witness :
  "R1" ≠ "" ∧
  room_strokes
    (run (appends "B" [("R1", pt (4#10) (4#10) 1); ("", pt (5#10) (5#10) 2)])
       (handle "B" (stroke_start "R1" (mk_stroke "s9" [pt (3#10) (3#10) 0] "B"))
          (run scenario1 init)).1) "R1"
  = room_strokes (run scenario1 init) "R1"
    ++ [extended (mk_stroke "s9" [pt (3#10) (3#10) 0] "B")
          (map snd [("R1", pt (4#10) (4#10) 1); ("", pt (5#10) (5#10) 2)])].
Proof.
  assert ("R1" ≠ "") as H by discriminate.
  split; [exact H |].
  exact (appended_points_keep_send_order "B" "R1"
           (mk_stroke "s9" [pt (3#10) (3#10) 0] "B")
           [("R1", pt (4#10) (4#10) 1); ("", pt (5#10) (5#10) 2)]
           (run scenario1 init) H).
Defined.

(** X6. [stroke_end] seals nothing and [cursor] stores nothing: neither
    changes the process state, so a point sent after [stroke_end], by
    anyone, is handled as if the [stroke_end] had not come. *)
Theorem stroke_end_seals_nothing
    (sock sock' : SocketId) (rm rm' : string) (c : CursorPayload) (p : NPoint)
    (st : Server) :
  (handle sock (stroke_end rm) st).1 = st ∧
  (handle sock (cursor c) st).1 = st ∧
  handle sock' (stroke_append rm' p) (handle sock (stroke_end rm) st).1
  = handle sock' (stroke_append rm' p) st.
Proof.
  assert ((handle sock (stroke_end rm) st).1 = st) as Hend.
  { simpl. unfold on_stroke_end. by destruct (current_room st sock). }
  split; [done|]. split; [|by rewrite Hend].
  simpl. unfold on_cursor. by destruct (current_room st sock).
Qed.

(** X7. A disconnection leaves the registry as it is (the strokes outlive
    the connection that drew them), takes the socket out of every socket.io
    room, ends its session and leaves the [roomId] of every other
    connection alone. *)
Theorem disconnect_keeps_strokes (sock : SocketId) (st : Server) :
  rooms (handle sock disconnect st).1 = rooms st ∧
  (∀ r, sock ∉ members (handle sock disconnect st).1 r) ∧
  current_room (handle sock disconnect st).1 sock = None ∧
  (∀ sock0, sock0 ≠ sock →
     roomId (handle sock disconnect st).1 !! sock0 = roomId st !! sock0).
Proof.
  simpl. split; [done|]. split; [|split].
  - intros r. unfold members; simpl. rewrite lookup_leave_all. set_solver.
  - unfold current_room; simpl. by rewrite lookup_delete_eq.
  - intros sock0 Hne. by rewrite lookup_delete_ne.
Qed.

(** *** Edges of [stroke_append] *)

Lemma push_to_last_ids (ss : list Stroke) (p : NPoint) :
  map id (push_to_last ss p) = map id ss.
Proof.
  destruct (decide (ss = [])) as [->|Hne]; [done|].
  destruct (exists_last Hne) as [ss0 [s ->]].
  rewrite push_to_last_snoc, !map_app. done.
Qed.

Lemma point_count_app (ss ss' : list Stroke) :
  point_count (ss ++ ss') = (point_count ss + point_count ss')%nat.
Proof.
  unfold point_count. rewrite map_app. induction (map _ ss) as [|n l IH]; simpl; lia.
Qed.

Lemma push_to_last_count (ss : list Stroke) (p : NPoint) :
  ss ≠ [] → point_count (push_to_last ss p) = S (point_count ss).
Proof.
  intros Hne. destruct (exists_last Hne) as [ss0 [s ->]].
  rewrite push_to_last_snoc, !point_count_app.
  unfold point_count; simpl. rewrite length_app; simpl. lia.
Qed.

(** X8. [stroke_append] neither adds, removes nor reorders strokes: the ids
    of the room are what they were.  In a room that has strokes the room
    gains exactly one point; in a room without strokes the whole state
    stays as it is, and the point is relayed to the others all the same. *)
Theorem stroke_append_keeps_strokes
    (sock : SocketId) (r rm : string) (p : NPoint) (st : Server) :
  current_room st sock = Some r →
  map id (room_strokes (handle sock (stroke_append rm p) st).1 r)
  = map id (room_strokes st r) ∧
  (room_strokes st r ≠ [] →
     point_count (room_strokes (handle sock (stroke_append rm p) st).1 r)
     = S (point_count (room_strokes st r))) ∧
  (room_strokes st r = [] → (handle sock (stroke_append rm p) st).1 = st) ∧
  (is_Some (rooms st !! r) →
     (handle sock (stroke_append rm p) st).2
     = [ (socket_to sock r, m_stroke_append sock p) ]).
Proof.
  intros Hr. rewrite stroke_append_strokes by done.
  split; [apply push_to_last_ids|]. split; [apply push_to_last_count|].
  simpl. unfold on_stroke_append. rewrite Hr. unfold room_strokes.
  destruct (rooms st !! r) as [[ss]|] eqn:Hs; simpl; split; try done.
  intros ->. destruct st as [rs ri ad]; unfold set_rooms; simpl in *.
  f_equal. by apply insert_id.
Qed.

Lemma stroke_append_keeps_strokes_witness :
  current_room (run two_open_strokes init) "A" = Some "R1" ∧
  map id (room_strokes
            (handle "A" (stroke_append "R1" (pt (2#10) (2#10) 1))
               (run two_open_strokes init)).1 "R1")
  = map id (room_strokes (run two_open_strokes init) "R1").
Proof.
  assert (current_room (run two_open_strokes init) "A" = Some "R1") as H.
  { vm_compute. reflexivity. }
  split; [exact H |].
  exact (proj1 (stroke_append_keeps_strokes "A" "R1" "R1" (pt (2#10) (2#10) 1)
                  (run two_open_strokes init) H)).
Defined.

(** *** Joining *)

Lemma socket_join_twice (sock : SocketId) (room : string) (a : gmap string (gset string)) :
  socket_join sock room (socket_join sock room a) = socket_join sock room a.
Proof.
  unfold socket_join. rewrite lookup_insert_eq, insert_insert_eq. simpl.
  f_equal. set_solver.
Qed.

(** X9. Joining the room one is in already changes nothing: a second
    [join_room] for the same room leaves the whole process state as the
    first left it, and is answered with the same snapshot. *)
Theorem join_room_again_is_noop (sock : SocketId) (room : string) (st : Server) :
  handle sock (join_room room) (handle sock (join_room room) st).1
  = ((handle sock (join_room room) st).1, (handle sock (join_room room) st).2).
Proof.
  simpl. unfold on_join_room, get_or_new. simpl.
  rewrite lookup_insert_eq. simpl.
  rewrite !insert_insert_eq, socket_join_twice. done.
Qed.

(** X10. An event touches the strokes of one room at most: the room named in
    the payload for [join_room] and [stroke_start], the room of the
    connection for the other messages.  The RoomState of every other room
    is what it was. *)
Theorem other_rooms_untouched
    (sock : SocketId) (e : Event) (st : Server) (r : string) :
  acted_room st sock e ≠ Some r →
  rooms (handle sock e st).1 !! r = rooms st !! r.
Proof.
  intros Hne.
  destruct e; simpl in *; try done;
    unfold on_cursor, on_stroke_append, on_stroke_end, on_clear, on_undo;
    try (rewrite lookup_insert_ne; [done | congruence]);
    destruct (current_room st sock) as [r0|]; simpl; try done;
    destruct (rooms st !! r0); simpl; try done;
    rewrite lookup_insert_ne; [done | congruence | done | congruence | done | congruence].
Qed.

Lemma other_rooms_untouched_witness :
  acted_room (run two_open_strokes init) "A" (clear "R9") ≠ Some "R7" ∧
  rooms (handle "A" (clear "R9") (run two_open_strokes init)).1 !! "R7"
  = rooms (run two_open_strokes init) !! "R7".
Proof.
  assert (acted_room (run two_open_strokes init) "A" (clear "R9") ≠ Some "R7") as H.
  { vm_compute. discriminate. }
  split; [exact H |].
  exact (other_rooms_untouched "A" (clear "R9") (run two_open_strokes init) "R7" H).
Defined.

(** X11. The room whose id is the empty string can be entered but not
    worked in.  [join_room] and [stroke_start] with that id make the
    connection a socket.io member of it (and [stroke_start] stores the
    stroke), yet the guard [if (!roomId) return] takes the connection for
    one without a room: its [cursor], [stroke_append], [stroke_end], [undo]
    and [clear] change nothing and are relayed to nobody. *)
Theorem empty_room_id_is_inert
    (sock : SocketId) (e0 e : Event) (k : Stroke) (st : Server) :
  e0 = join_room "" ∨ e0 = stroke_start "" k →
  guarded e = true →
  sock ∈ members (handle sock e0 st).1 "" ∧
  handle sock e (handle sock e0 st).1 = ((handle sock e0 st).1, []) ∧
  (e0 = stroke_start "" k →
     room_strokes (handle sock e (handle sock e0 st).1).1 "" = room_strokes st "" ++ [k]).
Proof.
  intros He0 Hg.
  assert (current_room (handle sock e0 st).1 sock = None) as Hnone.
  { destruct He0 as [-> | ->]; unfold current_room; simpl;
      by rewrite lookup_insert_eq. }
  assert (handle sock e (handle sock e0 st).1 = ((handle sock e0 st).1, [])) as Hnoop.
  { destruct e; try discriminate Hg; simpl;
      unfold on_cursor, on_stroke_append, on_stroke_end, on_clear, on_undo;
      by rewrite Hnone. }
  split; [|split; [done|]].
  - destruct He0 as [-> | ->]; unfold members; simpl;
      rewrite lookup_socket_join, decide_True by done; set_solver.
  - intros ->. rewrite Hnoop. apply start_strokes.
Qed.

Lemma empty_room_id_is_inert_witness :
  (stroke_start "" (mk_stroke "s1" [pt (1#10) (1#10) 0] "A") = join_room "" ∨
   stroke_start "" (mk_stroke "s1" [pt (1#10) (1#10) 0] "A")
   = stroke_start "" (mk_stroke "s1" [pt (1#10) (1#10) 0] "A")) ∧
  guarded (undo "") = true ∧
  handle "A" (undo "")
    (handle "A" (stroke_start "" (mk_stroke "s1" [pt (1#10) (1#10) 0] "A")) init).1
  = ((handle "A" (stroke_start "" (mk_stroke "s1" [pt (1#10) (1#10) 0] "A")) init).1, []).
Proof.
  assert (stroke_start "" (mk_stroke "s1" [pt (1#10) (1#10) 0] "A") = join_room "" ∨
          stroke_start "" (mk_stroke "s1" [pt (1#10) (1#10) 0] "A")
          = stroke_start "" (mk_stroke "s1" [pt (1#10) (1#10) 0] "A")) as H0
    by (right; reflexivity).
  assert (guarded (undo "") = true) as H1 by reflexivity.
  split; [exact H0 | split; [exact H1 |]].
  exact (proj1 (proj2 (empty_room_id_is_inert "A" _ (undo "")
                         (mk_stroke "s1" [pt (1#10) (1#10) 0] "A") init H0 H1))).
Defined.

End SocketLaws.

(* ===================================================================== *)
(** ** Further facts about hooks/useShapeAI.ts *)
(* ===================================================================== *)

Module ShapeAILaws.

Import ShapeAI ShapeAISpec.
Import Terms.
Local Open Scope Q_scope.

Section SortLaws.

Context {A : Type} (key : A → Q).

Lemma insert_Permutation (a : A) (l : list A) :
  insert (λ a b, key b - key a) a l ≡ₚ a :: l.
Proof.
  induction l as [|b l IH]; simpl; [done|].
  destruct (Qle_bool (key b - key a) 0); [done|].
  rewrite IH. apply Permutation_swap.
Qed.

Lemma sort_Permutation (l : list A) : sort (λ a b, key b - key a) l ≡ₚ l.
Proof.
  induction l as [|a l IH]; simpl; [done|].
  by rewrite insert_Permutation, IH.
Qed.

Lemma sort_ranked_id (l : list A) :
  StronglySorted (λ a b, key b <= key a) l → sort (λ a b, key b - key a) l = l.
Proof.
  induction 1 as [|a l Hl IH Ha]; simpl; [done|].
  rewrite IH. destruct l as [|b l]; simpl; [done|].
  apply Forall_cons in Ha as [Hab _].
  destruct (Qle_bool (key b - key a) 0) eqn:Hle; [done|].
  assert (key b - key a <= 0) as H by lra.
  apply Qle_bool_iff in H. congruence.
Qed.

End SortLaws.

Section PredictLaws.

Variable exp : Q → Q.

Lemma scores_labels (corners circ ar sym : Q) :
  map label
    (map (λ kv : string * Q, {| label := kv.1; score := kv.2 |})
       (scores exp corners circ ar sym))
  = six.
Proof. reflexivity. Qed.

Lemma predict_four (corners circ ar sym : Q) (rest : list Q) (topK : Z) :
  predict exp (corners :: circ :: ar :: sym :: rest) topK
  = Some (slice0
            (sort (λ a b, score b - score a)
               (map (λ kv : string * Q, {| label := kv.1; score := kv.2 |})
                  (scores exp corners circ ar sym)))
            topK).
Proof. reflexivity. Qed.

Lemma predict_five (corners circ ar sym lengthNorm : Q) (rest : list Q) (topK : Z) :
  predict exp (corners :: circ :: ar :: sym :: lengthNorm :: rest) topK
  = Some (slice0
            (sort (λ a b, score b - score a)
               (map (λ kv : string * Q, {| label := kv.1; score := kv.2 |})
                  (scores exp corners circ ar sym)))
            topK).
Proof. reflexivity. Qed.

Lemma slice0_sublist {A : Type} (l : list A) (k : Z) : slice0 l k `sublist_of` l.
Proof. unfold slice0. apply sublist_take. Qed.

Lemma map_sublist {A B : Type} (f : A → B) (l1 l2 : list A) :
  l1 `sublist_of` l2 → map f l1 `sublist_of` map f l2.
Proof. induction 1; simpl; by constructor. Qed.

Lemma filter_StronglySorted {A : Type} (R : A → A → Prop) (f : A → bool) (l : list A) :
  StronglySorted R l → StronglySorted R (List.filter f l).
Proof.
  induction 1 as [|a l Hl IH Ha]; simpl; [constructor|].
  destruct (f a); [|done]. constructor; [done|].
  apply List.Forall_forall. intros b Hb. apply filter_In in Hb as [Hb _].
  by apply (proj1 (List.Forall_forall _ _) Ha).
Qed.

(** X12. The second sort of the component is idle.  A list that is ranked
    by score is left as it is by the sort; the list [predict] returns is
    ranked, and so is what the filter [score >= 0.25] keeps of it: the
    component's [predict(..).filter(..).sort(..)] is the filtered list
    itself, in the order [predict] gave. *)
Theorem second_sort_is_idle
    (features : list Q) (topK : Z) (out : list HeuristicPrediction) :
  predict exp features topK = Some out →
  sort (λ a b, score b - score a)
    (List.filter (λ p, Qle_bool (25 # 100) (score p)) out)
  = List.filter (λ p, Qle_bool (25 # 100) (score p)) out ∧
  (∀ l : list HeuristicPrediction,
     ranked l → sort (λ a b, score b - score a) l = l).
Proof.
  intros Hout. split; [|intros l Hl; by apply (sort_ranked_id score)].
  apply (sort_ranked_id score). apply filter_StronglySorted.
  destruct features as [|corners [|circ [|ar [|sym rest]]]];
    try discriminate Hout.
  rewrite predict_four in Hout.
  assert (out = slice0 (sort (λ a b, score b - score a)
                          (map (λ kv : string * Q, {| label := kv.1; score := kv.2 |})
                             (scores exp corners circ ar sym))) topK) as ->
    by congruence.
  unfold slice0. apply take_StronglySorted. apply (sort_StronglySorted score).
Qed.

(** X13. For an array of at least five features [predict] returns
    [min(topK, 6)] entries when [topK] is not negative and
    [max(6 + topK, 0)] entries when it is: a negative count cuts entries
    off the back instead of giving none. *)
Theorem predict_length (features : list Q) (topK : Z) :
  (5 ≤ length features)%nat →
  ∃ out : list HeuristicPrediction,
    predict exp features topK = Some out ∧
    Z.of_nat (length out)
    = (if (topK <? 0)%Z then Z.max (6 + topK) 0 else Z.min topK 6).
Proof.
  intros Hlen.
  destruct features as [|corners [|circ [|ar [|sym [|lengthNorm rest]]]]];
    simpl in Hlen; try lia.
  eexists. split; [reflexivity|].
  unfold slice0. rewrite length_take, (sort_length score), !length_map. simpl.
  destruct (Z.ltb_spec topK 0); lia.
Qed.

(** X14. The labels [predict] returns are distinct and are among the six
    shapes; with a count of six or more each shape appears exactly once. *)
Theorem predict_labels (features : list Q) (topK : Z) :
  (5 ≤ length features)%nat →
  ∃ out : list HeuristicPrediction,
    predict exp features topK = Some out ∧
    NoDup (map label out) ∧
    map label out ⊆ six ∧
    ((6 ≤ topK)%Z → map label out ≡ₚ six).
Proof.
  intros Hlen.
  destruct features as [|corners [|circ [|ar [|sym [|lengthNorm rest]]]]];
    simpl in Hlen; try lia.
  eexists. split; [reflexivity|].
  set (l := map _ (scores exp corners circ ar sym)).
  assert (map label (sort (λ a b, score b - score a) l) ≡ₚ six) as Hperm.
  { rewrite (sort_Permutation score). done. }
  assert (NoDup six) as Hnd.
  { apply (bool_decide_unpack _). vm_compute. exact I. }
  assert (map label (slice0 (sort (λ a b, score b - score a) l) topK)
          `sublist_of` map label (sort (λ a b, score b - score a) l)) as Hsub.
  { apply map_sublist, slice0_sublist. }
  split; [|split].
  - refine (sublist_NoDup _ _ _ Hsub). by rewrite Hperm.
  - intros x Hx. rewrite <- Hperm. eapply sublist_submseteq in Hsub.
    by eapply elem_of_submseteq.
  - intros Hk. rewrite <- Hperm. unfold slice0.
    destruct (Z.ltb_spec topK 0); [lia|].
    rewrite take_ge; [done|].
    rewrite (sort_length score). unfold l. rewrite length_map. simpl. lia.
Qed.

Lemma predict_elem_label (features : list Q) (topK : Z)
    (out : list HeuristicPrediction) (p : HeuristicPrediction) :
  predict exp features topK = Some out → p ∈ out → label p ∈ six.
Proof.
  intros Hout Hp.
  destruct features as [|corners [|circ [|ar [|sym rest]]]];
    try discriminate Hout.
  rewrite predict_four in Hout.
  assert (out = slice0 (sort (λ a b, score b - score a)
                          (map (λ kv : string * Q, {| label := kv.1; score := kv.2 |})
                             (scores exp corners circ ar sym))) topK) as ->
    by congruence.
  eapply elem_of_submseteq in Hp; [|apply sublist_submseteq, slice0_sublist].
  rewrite (sort_Permutation score) in Hp.
  rewrite <- (scores_labels corners circ ar sym).
  apply list_elem_of_fmap. by exists p.
Qed.

(** X15. A stroke with at most six corners never scores as a star: whatever
    the other features, the entry labelled [star] has score zero. *)
Theorem star_needs_seven_corners
    (corners circ ar sym lengthNorm : Q) (rest : list Q) (topK : Z)
    (out : list HeuristicPrediction) (p : HeuristicPrediction) :
  corners <= 6 →
  predict exp (corners :: circ :: ar :: sym :: lengthNorm :: rest) topK = Some out →
  p ∈ out → label p = "star"%string →
  score p == 0.
Proof.
  intros Hc Hout Hp Hl.
  assert (p ∈ map (λ kv : string * Q, {| label := kv.1; score := kv.2 |})
                (scores exp corners circ ar sym)) as Hin.
  { rewrite <- (sort_Permutation score).
    eapply elem_of_submseteq; [exact Hp|].
    apply sublist_submseteq. rewrite predict_five in Hout.
    assert (out = slice0 (sort (λ a b, score b - score a)
                            (map (λ kv : string * Q, {| label := kv.1; score := kv.2 |})
                               (scores exp corners circ ar sym))) topK) as ->
      by congruence.
    apply slice0_sublist. }
  clear Hp Hout. rename Hin into Hp.
  simpl in Hp. repeat (apply elem_of_cons in Hp as [-> | Hp]);
    try discriminate Hl; [|by apply elem_of_nil in Hp].
  simpl. unfold clamp01.
  assert (Qmax 0 (corners - 6) == 0) as ->.
  { apply Q.max_l. lra. }
  assert (0 / 6 * (1 - circ * (5 # 10)) == 0) as -> by (field).
  reflexivity.
Qed.

End PredictLaws.

Lemma star_needs_seven_corners_witness :
  0 <= 6 ∧
  predict sample_exp (0 :: (9 # 10) :: 1 :: (9 # 10) :: 3 :: []) 10
  = Some (slice0
            (sort (λ a b, score b - score a)
               (map (λ kv : string * Q, {| label := kv.1; score := kv.2 |})
                  (scores sample_exp 0 (9 # 10) 1 (9 # 10))))
            10) ∧
  score {| label := "star";
           score := clamp01 (Qmax 0 (0 - 6) / 6 * (1 - (9 # 10) * (5 # 10))) |} == 0.
Proof.
  assert (0 <= 6) as H by discriminate.
  split; [exact H | split; [reflexivity |]].
  refine (star_needs_seven_corners sample_exp 0 (9 # 10) 1 (9 # 10) 3 [] 10 _
            {| label := "star";
               score := clamp01 (Qmax 0 (0 - 6) / 6 * (1 - (9 # 10) * (5 # 10))) |}
            H eq_refl _ eq_refl).
  apply list_elem_of_In. vm_compute.
  right; right; right; right; left; reflexivity.
Defined.

Lemma second_sort_is_idle_witness :
  predict sample_exp round_stroke 10
  = Some (slice0
            (sort (λ a b, score b - score a)
               (map (λ kv : string * Q, {| label := kv.1; score := kv.2 |})
                  (scores sample_exp 0 (9 # 10) 1 (9 # 10))))
            10) ∧
  sort (λ a b, score b - score a)
    (List.filter (λ p, Qle_bool (25 # 100) (score p))
       (slice0
          (sort (λ a b, score b - score a)
             (map (λ kv : string * Q, {| label := kv.1; score := kv.2 |})
                (scores sample_exp 0 (9 # 10) 1 (9 # 10))))
          10))
  = List.filter (λ p, Qle_bool (25 # 100) (score p))
      (slice0
         (sort (λ a b, score b - score a)
            (map (λ kv : string * Q, {| label := kv.1; score := kv.2 |})
               (scores sample_exp 0 (9 # 10) 1 (9 # 10))))
         10).
Proof.
  split; [reflexivity |].
  exact (proj1 (second_sort_is_idle sample_exp round_stroke 10 _ eq_refl)).
Defined.

Lemma predict_length_witness :
  (5 ≤ length round_stroke)%nat ∧
  ∃ out : list HeuristicPrediction,
    predict sample_exp round_stroke (-2) = Some out ∧
    Z.of_nat (length out)
    = (if (-2 <? 0)%Z then Z.max (6 + -2) 0 else Z.min (-2) 6).
Proof.
  assert (5 ≤ length round_stroke)%nat as H by (simpl; lia).
  split; [exact H |].
  exact (predict_length sample_exp round_stroke (-2) H).
Defined.

Lemma predict_labels_witness :
  (5 ≤ length round_stroke)%nat ∧
  ∃ out : list HeuristicPrediction,
    predict sample_exp round_stroke 10 = Some out ∧
    NoDup (map label out) ∧
    map label out ⊆ six ∧
    ((6 ≤ 10)%Z → map label out ≡ₚ six).
Proof.
  assert (5 ≤ length round_stroke)%nat as H by (simpl; lia).
  split; [exact H |].
  exact (predict_labels sample_exp round_stroke 10 H).
Defined.

End ShapeAILaws.

(* ===================================================================== *)
(** ** Further facts about components/AutoDraw.tsx *)
(* ===================================================================== *)

Module ClientLaws.

Import ShapeAI Client SocketSpec ShapeAISpec ShapeAILaws.
Import Terms.
Local Open Scope Q_scope.

(** *** The bounding box *)



Section Extremes.

Context {P : Type} (f : P → Q).



End Extremes.




Example bbox_sample :
  getBBox sample_path = Some {| x := 10; y := 20; w := 40; h := 40 |}
  ∧ getBBox [px 5 5 0] = Some {| x := 5; y := 5; w := 1; h := 1 |}
  ∧ getBBox [] = None.
Proof. repeat split; vm_compute; reflexivity. Qed.

(** *** The suggestions *)

Lemma slice0_take {A : Type} (l : list A) (k : Z) :
  (0 ≤ k)%Z → slice0 l k = take (Z.to_nat k) l.
Proof.
  intros Hk. unfold slice0. destruct (Z.ltb_spec k 0) as [|_]; [lia|].
  destruct (Z.le_gt_cases k (Z.of_nat (length l))) as [Hle|Hgt].
  - by rewrite Z.min_l.
  - rewrite Z.min_r by lia. rewrite Nat2Z.id.
    rewrite !take_ge by lia. done.
Qed.

Lemma shortlist_unfold (predicted : list HeuristicPrediction) :
  ∃ (S : list HeuristicPrediction) (n : nat),
    shortlist predicted = take n S ∧
    S = sort (λ a b, score b - score a)
          (List.filter (λ p, Qle_bool (25 # 100) (score p)) predicted) ∧
    (1 ≤ n ≤ 3)%nat ∧
    (∀ best S', S = best :: S' →
       (6 # 10 <= score best → n = 1%nat) ∧
       (4 # 10 <= score best → (n ≤ 2)%nat)).
Proof.
  unfold shortlist.
  set (S := sort _ (List.filter _ predicted)).
  destruct S as [|b S'] eqn:HS.
  - exists [], 3%nat. split; [done|]. split; [done|]. split; [lia|]. done.
  - destruct (Qle_bool (6 # 10) (score b)) eqn:H6;
      [|destruct (Qle_bool (4 # 10) (score b)) eqn:H4].
    + exists (b :: S'), 1%nat. rewrite slice0_take by lia.
      split; [done|]. split; [done|]. split; [lia|].
      intros best S'' _. split; intros _; lia.
    + exists (b :: S'), 2%nat. rewrite slice0_take by lia.
      split; [done|]. split; [done|]. split; [lia|].
      intros best S'' [= <- <-]. split; [|intros _; lia].
      intros Hb. apply Qle_bool_iff in Hb. congruence.
    + exists (b :: S'), 3%nat. rewrite slice0_take by lia.
      split; [done|]. split; [done|]. split; [lia|].
      intros best S'' [= <- <-].
      split; intros Hb; apply Qle_bool_iff in Hb; congruence.
Qed.

Lemma shortlist_sub (predicted : list HeuristicPrediction) (p : HeuristicPrediction) :
  p ∈ shortlist predicted → p ∈ predicted.
Proof.
  destruct (shortlist_unfold predicted) as (S & n & -> & HS & _).
  intros Hp. eapply elem_of_submseteq in Hp;
    [|apply sublist_submseteq, sublist_take].
  subst S. rewrite (sort_Permutation score) in Hp.
  apply list_elem_of_In in Hp. apply filter_In in Hp as [Hp _].
  by apply list_elem_of_In.
Qed.

(** X17. The predictions the component shows are at most three, each with a
    score of at least 0.25, ranked from the best down, and all taken from
    the predictions given.  None is shown exactly when every prediction is
    below 0.25.  When the best score reaches 0.6 it is shown alone; when it
    reaches 0.4 at most one other is shown with it. *)
Theorem shortlist_shape (predicted : list HeuristicPrediction) :
  (length (shortlist predicted) ≤ 3)%nat ∧
  Forall (λ p, 25 # 100 <= score p) (shortlist predicted) ∧
  ranked (shortlist predicted) ∧
  (∀ p, p ∈ shortlist predicted → p ∈ predicted) ∧
  (shortlist predicted = [] ↔ Forall (λ p, score p < 25 # 100) predicted) ∧
  (∀ best rest, shortlist predicted = best :: rest →
     (6 # 10 <= score best → rest = []) ∧
     (4 # 10 <= score best → (length rest ≤ 1)%nat)).
Proof.
  destruct (shortlist_unfold predicted) as (S & n & -> & HS & Hn & Hbest).
  assert (Forall (λ p, 25 # 100 <= score p)
            (List.filter (λ p, Qle_bool (25 # 100) (score p)) predicted)) as HF.
  { apply List.Forall_forall. intros p [_ Hp]%filter_In. by apply Qle_bool_iff. }
  split; [rewrite length_take; lia|].
  split; [apply Forall_take; subst S; by apply (sort_Forall score)|].
  split; [apply take_StronglySorted; subst S; apply (sort_StronglySorted score)|].
  split; [|split].
  - intros p Hp. eapply elem_of_submseteq in Hp;
      [|apply sublist_submseteq, sublist_take].
    subst S. rewrite (sort_Permutation score) in Hp.
    apply list_elem_of_In in Hp. apply filter_In in Hp as [Hp _].
    by apply list_elem_of_In.
  - assert (take n S = [] ↔ S = []) as ->.
    { clear HS Hbest. destruct S; [by rewrite take_nil|].
      destruct n; [lia|]. simpl. split; discriminate. }
    assert (S = [] ↔ List.filter (λ p, Qle_bool (25 # 100) (score p)) predicted = [])
      as ->.
    { subst S. split; [|by intros ->].
      intros H. apply (f_equal length) in H. rewrite (sort_length score) in H.
      by apply length_zero_iff_nil. }
    clear. induction predicted as [|p l IH]; simpl.
    + split; [constructor | done].
    + destruct (Qle_bool (25 # 100) (score p)) eqn:Hp.
      * split; [done|]. intros [Hlt _]%Forall_cons.
        apply Qle_bool_iff in Hp. lra.
      * rewrite IH. split.
        -- intros Hl. constructor; [|done].
           apply Qnot_le_lt. intros Hle. apply Qle_bool_iff in Hle. congruence.
        -- by intros [_ Hl]%Forall_cons.
  - intros best rest Hout.
    destruct S as [|b S']; [by destruct n|].
    destruct n as [|n]; [done|]. simpl in Hout. injection Hout as <- <-.
    destruct (Hbest b S' eq_refl) as [H6 H4]. split.
    + intros Hb. specialize (H6 Hb). by replace n with 0%nat by lia.
    + intros Hb. specialize (H4 Hb). rewrite length_take. lia.
Qed.

Example suggest_round_stroke :
  (map label <$> suggest sample_exp round_stroke) = Some ["circle"].
Proof. vm_compute. reflexivity. Qed.

(** *** Labels *)

Section Labels.

Variable toLowerCase : string → string.
Variable exp : Q → Q.

(** X18. Every label [predict] gives, hence every one the component shows,
    is mapped by [mapToShapeLabel] to the shape of that very name: the
    [label] of a suggestion is its [raw] label.  Used of [toLowerCase]:
    it leaves the six lower-case names unchanged. *)
Theorem suggestion_label_is_raw
    (feats : list Q) (out : list HeuristicPrediction) (p : HeuristicPrediction) :
  (∀ l, l ∈ six → toLowerCase l = l) →
  suggest exp feats = Some out →
  p ∈ out →
  shape_name (mapToShapeLabel toLowerCase (label p)) = label p.
Proof.
  intros Hfix Hout Hp. unfold suggest in Hout.
  destruct (predict exp feats 10) as [predicted|] eqn:Hpred; [|discriminate].
  simpl in Hout. injection Hout as <-.
  apply shortlist_sub in Hp.
  pose proof (predict_elem_label exp feats 10 predicted p Hpred Hp) as Hl.
  pose proof (Hfix _ Hl) as Hlow.
  unfold mapToShapeLabel. rewrite Hlow.
  unfold six in Hl.
  repeat (apply elem_of_cons in Hl as [-> | Hl]); try reflexivity.
  by apply elem_of_nil in Hl.
Qed.

End Labels.

Lemma suggestion_label_is_raw_witness :
  (∀ l, l ∈ six → ascii_lower l = l) ∧
  suggest sample_exp round_stroke
  = Some [ {| label := "circle"; score := clamp01 ((9 # 10) * (1 - 0 / 8)) |} ] ∧
  shape_name (mapToShapeLabel ascii_lower "circle") = "circle"%string.
Proof.
  assert (∀ l, l ∈ six → ascii_lower l = l) as H.
  { intros l Hl. unfold six in Hl.
    repeat (apply elem_of_cons in Hl as [-> | Hl]); try reflexivity.
    by apply elem_of_nil in Hl. }
  assert (suggest sample_exp round_stroke
          = Some [ {| label := "circle"; score := clamp01 ((9 # 10) * (1 - 0 / 8)) |} ])
    as H'.
  { vm_compute. reflexivity. }
  split; [exact H | split; [exact H' |]].
  refine (suggestion_label_is_raw ascii_lower sample_exp round_stroke _
            {| label := "circle"; score := clamp01 ((9 # 10) * (1 - 0 / 8)) |}
            H H' _).
  left.
Defined.

(** Upper-case and mixed labels, and a label of no known shape. *)
Example mapToShapeLabel_samples :
  mapToShapeLabel ascii_lower "Five-pointed STAR" = star ∧
  mapToShapeLabel ascii_lower "sunflower" = circle ∧
  mapToShapeLabel ascii_lower "starry cloud" = star ∧
  mapToShapeLabel ascii_lower "hexagon" = rectangle.
Proof. repeat split; vm_compute; reflexivity. Qed.

(** *** The reconciler against the registry *)

Section Mirror.

(** The product of two doubles, of which nothing is assumed. *)
Variable fmul : Q → Q → Q.

Lemma hydrate_id (canvas : option AutoDraw.DOMRect) (ss : list Socket.Stroke) :
  map id (map (hydrate fmul canvas) ss) = map Socket.id ss.
Proof. rewrite map_map. by apply map_ext. Qed.

(** X20. Hydrating a snapshot keeps the strokes, their order and their ids,
    and every stroke keeps its number of points.  When the snapshot comes
    while there is no canvas, every point of every stroke lands on the
    origin (with its timestamp): the geometry of the snapshot is gone. *)
Theorem hydration_without_canvas
    (canvas : option AutoDraw.DOMRect) (state : Socket.RoomState) :
  map id (on_state fmul canvas state) = map Socket.id (Socket.strokes state) ∧
  map (λ k, length (points k)) (on_state fmul canvas state)
  = map (λ k, length (Socket.points k)) (Socket.strokes state) ∧
  (∀ k p, k ∈ on_state fmul None state → p ∈ points k →
     AutoDraw.x p = 0 ∧ AutoDraw.y p = 0).
Proof.
  unfold on_state. split; [apply hydrate_id|]. split.
  - rewrite map_map. apply map_ext. intros k. simpl. by rewrite length_map.
  - intros k p Hk Hp.
    apply list_elem_of_fmap in Hk as (k0 & -> & _). simpl in Hp.
    apply list_elem_of_fmap in Hp as (p0 & -> & _). done.
Qed.

Lemma slice0_drop_last {A : Type} (l : list A) : slice0 l (-1) = removelast l.
Proof.
  unfold slice0. simpl.
  destruct l as [|a l] using rev_ind; [done|].
  rewrite removelast_last, length_app. simpl.
  replace (Z.to_nat (Z.max (Z.of_nat (length l + 1) + -1) 0)) with (length l) by lia.
  by rewrite take_app_length.
Qed.

(** X21. The component's handlers for [undo], [clear] and [stroke_start]
    mirror the registry: applied to the hydrated strokes of a RoomState,
    they give the hydrated strokes of the RoomState after the registry's
    [pop], emptying and push. *)
Theorem reconciler_mirrors_registry
    (canvas : option AutoDraw.DOMRect) (ss : list Socket.Stroke) (k : Socket.Stroke) :
  on_undo (on_state fmul canvas {| Socket.strokes := ss |})
  = on_state fmul canvas {| Socket.strokes := Socket.pop ss |} ∧
  on_clear (on_state fmul canvas {| Socket.strokes := ss |})
  = on_state fmul canvas {| Socket.strokes := [] |} ∧
  on_stroke_start fmul canvas k (on_state fmul canvas {| Socket.strokes := ss |})
  = on_state fmul canvas {| Socket.strokes := ss ++ [k] |}.
Proof.
  unfold on_undo, on_clear, on_stroke_start, on_state, Socket.pop. simpl.
  split; [|split; [done|]].
  - rewrite slice0_drop_last.
    destruct ss as [|s ss _] using rev_ind; [done|].
    rewrite map_app. cbn [map]. by rewrite !removelast_last.
  - by rewrite map_app.
Qed.

(** X22. For a sender the component tracks no open stroke of (it joined
    after the [stroke_start], or the stroke has ended), a relayed point goes
    to the last local stroke, which is where the registry put it: the
    fallback applied to the hydrated strokes gives the hydrated strokes of
    the room after the registry's own append. *)
Theorem fallback_mirrors_registry
    (canvas : option AutoDraw.DOMRect) (ss : list Socket.Stroke) (point : Socket.NPoint) :
  on_stroke_append_fallback fmul canvas point
    (on_state fmul canvas {| Socket.strokes := ss |})
  = on_state fmul canvas {| Socket.strokes := Socket.push_to_last ss point |}.
Proof.
  unfold on_state. simpl.
  destruct ss as [|s ss _] using rev_ind; [done|].
  rewrite push_to_last_snoc, !map_app.
  unfold on_stroke_append_fallback. rewrite length_app, length_map. simpl.
  replace (length ss + 1 - 1)%nat
    with (length (map (hydrate fmul canvas) ss) + 0)%nat
    by (rewrite length_map; lia).
  rewrite lookup_app_r by lia.
  replace (length (map (hydrate fmul canvas) ss) + 0
           - length (map (hydrate fmul canvas) ss))%nat
    with 0%nat by lia.
  simpl. rewrite insert_app_r. simpl.
  unfold hydrate at 3. simpl. by rewrite map_app.
Qed.

End Mirror.

End ClientLaws.
